(** * Distributed-memory AMG preconditioner (amgcl/mpi/amg.hpp)

    A shallow embedding of the hierarchy builder, the cycle engine and the
    preconditioner facade of [amgcl::mpi::amg<Backend, Coarsening, Relax>].

    The three template parameters of the class are type classes here; the
    code of [amg.hpp] is written once, against those interfaces, exactly as
    the C++ template is.  Vectors live in a store indexed by locations, so
    that the references the recursion passes around ([*nxt->f], [*nxt->u],
    [*lvl->t], the caller's [rhs] and [x]) keep their identity.  Every call
    into a collaborator is also appended to a call log, which is what the
    statements about the order and the number of sweeps speak about. *)

From Stdlib Require Import String List NArith ZArith Bool Lia.
Import ListNotations.

Local Open Scope N_scope.

(** ** Collaborator interfaces (the template parameters) *)

(** [Backend]: the value types together with the primitives of
    [amgcl/backend/interface.hpp] that [amg.hpp] calls, and the size queries
    of [distributed_matrix<Backend>].  A primitive that writes through a
    reference returns the new contents of what it writes. *)
Class Backend : Type := {
  matrix : Type;
  vector : Type;
  scalar : Type;
  glob_rows : matrix -> N;
  glob_cols : matrix -> N;
  math_identity : scalar;
  math_zero : scalar;
  (* backend::clear(x) *)
  backend_clear : vector -> vector;
  (* backend::copy(src, dst) *)
  backend_copy : vector -> vector -> vector;
  (* backend::residual(rhs, A, x, r) *)
  backend_residual : vector -> matrix -> vector -> vector -> vector;
  (* backend::spmv(alpha, A, x, beta, y) *)
  backend_spmv : scalar -> matrix -> vector -> scalar -> vector -> vector
}.

(** [Relax<Backend>]: a smoother is built from the level matrix; one sweep
    rewrites the iterate [x] and the scratch vector it is handed. *)
Class Relax (B : Backend) : Type := {
  relax_type : Type;
  relax_params : Type;
  relax_params_default : relax_params;
  relax_new : matrix -> relax_params -> relax_type;
  (* relax->apply_pre(A, rhs, x, tmp, prm): the new x and the new tmp *)
  apply_pre :
    relax_type -> matrix -> vector -> vector -> vector -> relax_params ->
    vector * vector;
  apply_post :
    relax_type -> matrix -> vector -> vector -> vector -> relax_params ->
    vector * vector
}.

(** [Coarsening]: transfer operators [(P, R)] of a matrix, and the coarse
    operator built from them. *)
Class Coarsening (B : Backend) : Type := {
  coarsening_params : Type;
  coarsening_params_default : coarsening_params;
  transfer_operators : matrix -> coarsening_params -> matrix * matrix;
  coarse_operator :
    matrix -> matrix -> matrix -> coarsening_params -> matrix
}.

(** ** Results of fallible code *)

(** [amgcl::precondition] throws; a thrown exception is [Throw].  [NoFuel]
    is the embedding's own: the bounded loop below ran out of steps (shown
    impossible for [init]). *)
Inductive outcome (T : Type) : Type :=
| Ok (v : T)
| Throw (msg : string)
| NoFuel.

Arguments Ok {T} v.
Arguments Throw {T} msg.
Arguments NoFuel {T}.

Definition is_throw {T} (o : outcome T) : bool :=
  match o with Throw _ => true | _ => false end.

(** The property tree the parameters can be imported from, seen through the
    three [AMGCL_PARAMS_*] macros the constructor expands. *)
Class PropertyTree (B : Backend) (Rx : Relax B) (C : Coarsening B) : Type := {
  ptree : Type;
  (* AMGCL_PARAMS_IMPORT_CHILD(p, coarsening) / (p, relax) *)
  import_child_coarsening : ptree -> outcome coarsening_params;
  import_child_relax : ptree -> outcome relax_params;
  (* AMGCL_PARAMS_IMPORT_VALUE(p, name): p.get(name, default) *)
  import_value : ptree -> string -> N -> outcome N;
  (* AMGCL_PARAMS_CHECK(p, names) *)
  params_check : ptree -> list string -> outcome unit
}.

Section Amg.

Context {B : Backend} {Rx : Relax B} {C : Coarsening B}.

(** ** Parameters *)

(** [amg::params].  The numeric fields are C++ [unsigned]; the code only
    compares them and counts up to them. *)
Record params : Type := {
  coarsening : coarsening_params;
  relax : relax_params;
  coarse_enough : N;
  max_levels : N;
  npre : N;
  npost : N;
  ncycle : N;
  pre_cycles : N
}.

(** [std::numeric_limits<unsigned>::max()] *)
Definition unsigned_max : N := 4294967295.

(** [params::params()] *)
Definition params_default : params := {|
  coarsening := coarsening_params_default;
  relax := relax_params_default;
  coarse_enough := 1024;
  max_levels := unsigned_max;
  npre := 1;
  npost := 1;
  ncycle := 1;
  pre_cycles := 1
|}.

Definition bind_outcome {S T} (o : outcome S) (k : S -> outcome T) :
  outcome T :=
  match o with
  | Ok v => k v
  | Throw msg => Throw msg
  | NoFuel => NoFuel
  end.

Notation "'do' x <- o ; k" := (bind_outcome o (fun x => k))
  (at level 10, x name, o at level 100, k at level 200).

(** [amgcl::precondition(cond, msg)] *)
Definition precondition (cond : bool) (msg : string) : outcome unit :=
  if cond then Ok tt else Throw msg.

(** [params::params(const ptree &p)]: the member initialisers in declaration
    order, then the body. *)
Definition params_import {PT : PropertyTree B Rx C} (p : ptree) :
  outcome params :=
  do c <- import_child_coarsening p;
  do r <- import_child_relax p;
  do ce <- import_value p "coarse_enough" (coarse_enough params_default);
  do ml <- import_value p "max_levels" (max_levels params_default);
  do n1 <- import_value p "npre" (npre params_default);
  do n2 <- import_value p "npost" (npost params_default);
  do nc <- import_value p "ncycle" (ncycle params_default);
  do pc <- import_value p "pre_cycles" (pre_cycles params_default);
  do _ <- params_check p
            ["coarsening"; "relax"; "coarse_enough"; "max_levels"; "npre";
             "npost"; "ncycle"; "pre_cycles"]%string;
  do _ <- precondition (0 <? ml) "max_levels should be positive";
  Ok {| coarsening := c; relax := r; coarse_enough := ce; max_levels := ml;
        npre := n1; npost := n2; ncycle := nc; pre_cycles := pc |}.

(** ** Levels *)

(** [amg::level].  [P] and [R] are shared pointers that start out null.  The
    work vectors [f], [u], [t] of the level at position [i] of the list are
    the store locations [LevF i], [LevU i], [LevT i] below. *)
Record level : Type := {
  level_A : matrix;
  level_P : option matrix;
  level_R : option matrix;
  level_relax : relax_type
}.

(** [level::level(A, prm, bprm)] *)
Definition level_new (prm : params) (A : matrix) : level := {|
  level_A := A;
  level_P := None;
  level_R := None;
  level_relax := relax_new A (relax prm)
|}.

(** [level::step_down(prm)]: the level with [P] and [R] assigned, and the
    returned pointer (null for a zero-sized coarse level). *)
Definition step_down (prm : params) (l : level) : level * option matrix :=
  let (P, R) := transfer_operators (level_A l) (coarsening prm) in
  let l' := {| level_A := level_A l;
               level_P := Some P;
               level_R := Some R;
               level_relax := level_relax l |} in
  if glob_cols P =? 0
  then (l', None)
  else (l', Some (coarse_operator (level_A l) P R (coarsening prm))).

(** [level::move_to_backend()]: an in-place change of representation of the
    matrices that are present; no size and no product depends on it. *)
Definition move_to_backend (l : level) : level := l.

(** [levels.size()] *)
Definition size (levels : list level) : N := N.of_nat (List.length levels).

(** ** Hierarchy builder *)

(** The [while] loop of [amg::init], from a loop head with matrix [A] and
    the levels pushed so far.  The result is the list of levels and the
    pointer [A] as the loop leaves them.  [levels.back()] is the level that
    was just pushed. *)
Fixpoint init_loop (fuel : nat) (prm : params) (A : matrix)
  (levels : list level) : option (list level * option matrix) :=
  match fuel with
  | O => None
  | S fuel' =>
    if (coarse_enough prm <? glob_rows A) && (size levels <? max_levels prm)
    then
      let pushed := levels ++ [level_new prm A] in
      if max_levels prm <=? size pushed
      then Some (pushed, Some A)
      else
        let (l', A') := step_down prm (level_new prm A) in
        let levels' := levels ++ [move_to_backend l'] in
        match A' with
        | None => Some (levels', None)
        | Some Anext => init_loop fuel' prm Anext levels'
        end
    else Some (levels, Some A)
  end.

(** The [if (A)] block after the loop. *)
Definition init_finish (prm : params) (st : list level * option matrix) :
  list level :=
  match st with
  | (levels, Some A) => levels ++ [move_to_backend (level_new prm A)]
  | (levels, None) => levels
  end.

(** The loop and the final block together, from an arbitrary loop head. *)
Definition init_from (fuel : nat) (prm : params) (A : matrix)
  (levels : list level) : option (list level) :=
  option_map (init_finish prm) (init_loop fuel prm A levels).

(** Each pass through the loop body pushes one level, and the body is
    entered only while [levels.size() < max_levels]. *)
Definition init_fuel (prm : params) : nat := S (N.to_nat (max_levels prm)).

(** [amg::init(A, bprm)] on the empty [levels] list of a fresh object. *)
Definition init (prm : params) (A : matrix) : outcome (list level) :=
  do _ <- precondition (glob_rows A =? glob_cols A) "Matrix should be square!";
  match init_from (init_fuel prm) prm A [] with
  | Some levels => Ok levels
  | None => NoFuel
  end.

(** The [amg] object: its parameters and its list of levels. *)
Record amg : Type := {
  prm : params;
  levels : list level
}.

(** [amg::amg(comm, A, prm, bprm)], on the distributed matrix it wraps its
    argument into. *)
Definition amg_new (A : matrix) (p : params) : outcome amg :=
  do ls <- init p A;
  Ok {| prm := p; levels := ls |}.

(** ** The vector store and the call log *)

(** A vector object: one of the caller's ([rhs], [x] of the public entry
    points), or a work vector of the level at position [i]. *)
Inductive loc : Type :=
| Ext (k : nat)
| LevF (i : nat)
| LevU (i : nat)
| LevT (i : nat).

Definition loc_eqb (a b : loc) : bool :=
  match a, b with
  | Ext j, Ext k => Nat.eqb j k
  | LevF i, LevF j => Nat.eqb i j
  | LevU i, LevU j => Nat.eqb i j
  | LevT i, LevT j => Nat.eqb i j
  | _, _ => false
  end.

(** One entry per call into a collaborator, with the arguments of the call
    (vectors by their location). *)
Inductive event : Type :=
| EvApplyPre (rx : relax_type) (A : matrix) (rhs x t : loc)
| EvApplyPost (rx : relax_type) (A : matrix) (rhs x t : loc)
| EvResidual (rhs : loc) (A : matrix) (x r : loc)
| EvSpmv (alpha : scalar) (M : matrix) (src : loc) (beta : scalar) (dst : loc)
| EvClear (x : loc)
| EvCopy (src dst : loc).

Record machine : Type := {
  store : loc -> vector;
  log : list event
}.

Definition upd (s : loc -> vector) (l : loc) (v : vector) : loc -> vector :=
  fun l' => if loc_eqb l l' then v else s l'.

(** A piece of code run on the machine; [None] is a dereferenced null
    pointer (or an iterator moved past the end). *)
Definition action : Type := machine -> option machine.

Definition skip : action := fun m => Some m.

Definition crash : action := fun _ => None.

Definition seq (a b : action) : action :=
  fun m => match a m with Some m' => b m' | None => None end.

Notation "a ;; b" := (seq a b) (at level 61, right associativity).

Fixpoint repeat_action (n : nat) (a : action) : action :=
  match n with
  | O => skip
  | S n' => a ;; repeat_action n' a
  end.

(** [for (i = 0; i < n; ++i) a] for an unsigned bound [n]. *)
Definition times (n : N) (a : action) : action :=
  repeat_action (N.to_nat n) a.

(** [*ptr] for a shared pointer to a matrix. *)
Definition deref (ptr : option matrix) (k : matrix -> action) : action :=
  match ptr with
  | Some M => k M
  | None => crash
  end.

Definition op_apply_pre (p : params) (l : level) (rhs x t : loc) : action :=
  fun m =>
    let (x', t') :=
      apply_pre (level_relax l) (level_A l)
        (store m rhs) (store m x) (store m t) (relax p) in
    Some {| store := upd (upd (store m) x x') t t';
            log := log m ++ [EvApplyPre (level_relax l) (level_A l) rhs x t] |}.

Definition op_apply_post (p : params) (l : level) (rhs x t : loc) : action :=
  fun m =>
    let (x', t') :=
      apply_post (level_relax l) (level_A l)
        (store m rhs) (store m x) (store m t) (relax p) in
    Some {| store := upd (upd (store m) x x') t t';
            log := log m ++ [EvApplyPost (level_relax l) (level_A l) rhs x t] |}.

Definition op_residual (rhs : loc) (A : matrix) (x r : loc) : action :=
  fun m =>
    Some {| store :=
              upd (store m) r
                (backend_residual (store m rhs) A (store m x) (store m r));
            log := log m ++ [EvResidual rhs A x r] |}.

Definition op_spmv (alpha : scalar) (M : matrix) (src : loc) (beta : scalar)
  (dst : loc) : action :=
  fun m =>
    Some {| store :=
              upd (store m) dst
                (backend_spmv alpha M (store m src) beta (store m dst));
            log := log m ++ [EvSpmv alpha M src beta dst] |}.

Definition op_clear (x : loc) : action :=
  fun m =>
    Some {| store := upd (store m) x (backend_clear (store m x));
            log := log m ++ [EvClear x] |}.

Definition op_copy (src dst : loc) : action :=
  fun m =>
    Some {| store := upd (store m) dst (backend_copy (store m src) (store m dst));
            log := log m ++ [EvCopy src dst] |}.

(** ** Cycle engine *)

(** The private [amg::cycle(lvl, rhs, x)].  The iterator [lvl] is the list
    from the level it points at to the end of [levels], with the position [i]
    of that level; [++nxt] is the tail. *)
Fixpoint cycle (p : params) (lvls : list level) (i : nat) (rhs x : loc)
  {struct lvls} : action :=
  match lvls with
  | [] => crash
  | lvl :: nxt =>
    match nxt with
    | [] =>
      op_apply_pre p lvl rhs x (LevT i) ;;
      op_apply_post p lvl rhs x (LevT i)
    | _ :: _ =>
      times (ncycle p)
        (times (npre p) (op_apply_pre p lvl rhs x (LevT i)) ;;
         op_residual rhs (level_A lvl) x (LevT i) ;;
         deref (level_R lvl) (fun R =>
           op_spmv math_identity R (LevT i) math_zero (LevF (S i))) ;;
         op_clear (LevU (S i)) ;;
         cycle p nxt (S i) (LevF (S i)) (LevU (S i)) ;;
         deref (level_P lvl) (fun P =>
           op_spmv math_identity P (LevU (S i)) math_identity x) ;;
         times (npost p) (op_apply_post p lvl rhs x (LevT i)))
    end
  end.

(** The public [amg::cycle(rhs, x)]. *)
Definition amg_cycle (a : amg) (rhs x : loc) : action :=
  cycle (prm a) (levels a) 0 rhs x.

(** [amg::apply(rhs, x)] *)
Definition amg_apply (a : amg) (rhs x : loc) : action :=
  if negb (pre_cycles (prm a) =? 0)
  then
    op_clear x ;;
    times (pre_cycles (prm a)) (cycle (prm a) (levels a) 0 rhs x)
  else op_copy rhs x.

End Amg.

Notation "a ;; b" := (seq a b) (at level 61, right associativity).

(** * What the design prescribes

    Definitions the statements below are phrased with: the sequence of
    collaborator calls of a cycle, the shape of a built hierarchy, and the
    contracts of the coarsening collaborator. *)

Section Prescribed.

Context {B : Backend} {Rx : Relax B} {C : Coarsening B}.

(** The call an operator pointer contributes when it is present. *)
Definition deref_events (ptr : option matrix) (k : matrix -> event) :
  list event :=
  match ptr with
  | Some M => [k M]
  | None => []
  end.

(** The calls of one cycle, following the recursive definition of the Cycle
    Engine: at the last level one pre- and one post-relaxation call;
    elsewhere [ncycle] rounds of the seven steps (a transfer operator that
    is absent contributes no call). *)
Fixpoint cycle_events (p : params) (lvls : list level) (i : nat)
  (rhs x : loc) {struct lvls} : list event :=
  match lvls with
  | [] => []
  | lvl :: nxt =>
    match nxt with
    | [] =>
      [EvApplyPre (level_relax lvl) (level_A lvl) rhs x (LevT i);
       EvApplyPost (level_relax lvl) (level_A lvl) rhs x (LevT i)]
    | _ :: _ =>
      concat (repeat
        (repeat (EvApplyPre (level_relax lvl) (level_A lvl) rhs x (LevT i))
                (N.to_nat (npre p))
         ++ [EvResidual rhs (level_A lvl) x (LevT i)]
         ++ deref_events (level_R lvl) (fun R =>
              EvSpmv math_identity R (LevT i) math_zero (LevF (S i)))
         ++ [EvClear (LevU (S i))]
         ++ cycle_events p nxt (S i) (LevF (S i)) (LevU (S i))
         ++ deref_events (level_P lvl) (fun P =>
              EvSpmv math_identity P (LevU (S i)) math_identity x)
         ++ repeat (EvApplyPost (level_relax lvl) (level_A lvl) rhs x (LevT i))
                   (N.to_nat (npost p)))
        (N.to_nat (ncycle p)))
    end
  end.

(** Every level but the last has both transfer operators. *)
Fixpoint transfers_present (lvls : list level) : Prop :=
  match lvls with
  | [] => False
  | lvl :: nxt =>
    match nxt with
    | [] => True
    | _ :: _ =>
      level_P lvl <> None /\ level_R lvl <> None /\ transfers_present nxt
    end
  end.

(** An action that only appends [evs] to the log, whatever the store. *)
Definition logs (a : action) (evs : list event) : Prop :=
  forall m m', a m = Some m' -> log m' = log m ++ evs.

(** An action that cannot crash. *)
Definition total (a : action) : Prop :=
  forall m, exists m', a m = Some m'.

(** One round at a level [lvl] with restriction [R] and prolongation [P],
    [nxt] being the levels below it: the seven steps of the design, in its
    words. *)
Definition spec_round (p : params) (lvl : level) (R P : matrix)
  (nxt : list level) (i : nat) (rhs x : loc) : action :=
  (* 1. npre pre-relaxation sweeps of x against rhs *)
  times (npre p) (op_apply_pre p lvl rhs x (LevT i)) ;;
  (* 2. residual rhs - A x into L.t *)
  op_residual rhs (level_A lvl) x (LevT i) ;;
  (* 3. restrict: L'.f = R t, scale 1, no accumulation *)
  op_spmv math_identity R (LevT i) math_zero (LevF (S i)) ;;
  (* 4. clear L'.u *)
  op_clear (LevU (S i)) ;;
  (* 5. recurse at L' with (L'.f, L'.u) *)
  cycle p nxt (S i) (LevF (S i)) (LevU (S i)) ;;
  (* 6. prolongate and correct: x += P L'.u *)
  op_spmv math_identity P (LevU (S i)) math_identity x ;;
  (* 7. npost post-relaxation sweeps of x against rhs *)
  times (npost p) (op_apply_post p lvl rhs x (LevT i)).

(** The collaborator calls of one such round. *)
Definition spec_round_events (p : params) (lvl : level) (R P : matrix)
  (nxt : list level) (i : nat) (rhs x : loc) : list event :=
  repeat (EvApplyPre (level_relax lvl) (level_A lvl) rhs x (LevT i))
         (N.to_nat (npre p))
  ++ [EvResidual rhs (level_A lvl) x (LevT i);
      EvSpmv math_identity R (LevT i) math_zero (LevF (S i));
      EvClear (LevU (S i))]
  ++ cycle_events p nxt (S i) (LevF (S i)) (LevU (S i))
  ++ [EvSpmv math_identity P (LevU (S i)) math_identity x]
  ++ repeat (EvApplyPost (level_relax lvl) (level_A lvl) rhs x (LevT i))
            (N.to_nat (npost p)).

(** The machine [amg::apply] leaves behind when it only clears [x]. *)
Definition cleared (x : loc) (m : machine) : machine :=
  {| store := upd (store m) x (backend_clear (store m x));
     log := log m ++ [EvClear x] |}.

(** The machine [amg::apply] leaves behind when it only copies. *)
Definition copied (rhs x : loc) (m : machine) : machine :=
  {| store := upd (store m) x (backend_copy (store m rhs) (store m x));
     log := log m ++ [EvCopy rhs x] |}.

(** The matrix that follows a level inside [rest], or [A] after the last. *)
Definition next_matrix (rest : list level) (A : matrix) : matrix :=
  match rest with
  | [] => A
  | l :: _ => level_A l
  end.

(** Every level of [levels] is related to the matrix that follows it, the
    last one to the pending matrix [A]. *)
Fixpoint chained (rel : level -> matrix -> Prop) (levels : list level)
  (A : matrix) : Prop :=
  match levels with
  | [] => True
  | l :: rest => rel l (next_matrix rest A) /\ chained rel rest A
  end.

(** A level is linked to the matrix [M] that follows it when it holds both
    transfer operators and their global sizes agree with [M]'s. *)
Definition linked (l : level) (M : matrix) : Prop :=
  exists P R,
    level_P l = Some P /\ level_R l = Some R /\
    glob_cols P = glob_rows R /\ glob_rows R = glob_rows M.

(** What the last level of a hierarchy holds: no transfer operator, or the
    zero-column [P] (and its [R]) of a degenerate coarsening step. *)
Definition coarsest_shape (l : level) : Prop :=
  (level_P l = None /\ level_R l = None) \/
  (exists P R, level_P l = Some P /\ level_R l = Some R /\ glob_cols P = 0).

(** Contract of the coarsening collaborator on global sizes: [P] is
    [n x nc], [R] is [nc x n] and the coarse operator has [nc] rows. *)
Definition transfer_sizes_agree : Prop :=
  forall (A : matrix) (cp : coarsening_params) (P R : matrix),
    transfer_operators A cp = (P, R) ->
    glob_cols P = glob_rows R /\
    glob_rows (coarse_operator A P R cp) = glob_rows R.

(** Contract of the coarsening collaborator: coarsening does not grow. *)
Definition coarsening_shrinks : Prop :=
  forall (A : matrix) (cp : coarsening_params) (P R : matrix),
    transfer_operators A cp = (P, R) ->
    glob_rows (coarse_operator A P R cp) <= glob_rows A.

(** The level invariant in the words of the data model: every level with a
    successor is linked to it, and the last level has [P == R == null]. *)
Definition spec_transfer_invariant (lvls : list level) : Prop :=
  (forall i l l',
     nth_error lvls i = Some l ->
     nth_error lvls (S i) = Some l' ->
     linked l (level_A l'))
  /\ (exists front last,
        lvls = front ++ [last] /\ level_P last = None /\ level_R last = None).

(** The construction precondition in the words of the error taxonomy:
    a matrix that is not square, or [max_levels == 0], makes construction
    fail. *)
Definition spec_construction_rejects (p : params) (A : matrix) : Prop :=
  glob_rows A <> glob_cols A \/ max_levels p = 0 ->
  is_throw (amg_new A p) = true.

(** The depth bound in the words of the data model. *)
Definition spec_depth_bounded (p : params) (lvls : list level) : Prop :=
  size lvls <= max_levels p.

End Prescribed.

(** ** A concrete instantiation: dense integer matrices

    Small enough to run: row-major dense matrices over [Z], a Richardson
    smoother, and pairwise aggregation (which finds nothing to aggregate in
    a diagonal matrix) with the Galerkin coarse operator. *)

Record dense : Type := {
  d_rows : N;
  d_cols : N;
  d_data : list (list Z)
}.

Definition dot (r v : list Z) : Z :=
  fold_right (fun ab acc => (fst ab * snd ab + acc)%Z) 0%Z (combine r v).

Definition matvec (M : dense) (v : list Z) : list Z :=
  map (fun r => dot r v) (d_data M).

Definition dense_spmv (alpha : Z) (M : dense) (v : list Z) (beta : Z)
  (y : list Z) : list Z :=
  map (fun sy => (alpha * fst sy + beta * snd sy)%Z) (combine (matvec M v) y).

Definition dense_residual (rhs : list Z) (A : dense) (x _r : list Z) :
  list Z :=
  map (fun bs => (fst bs - snd bs)%Z) (combine rhs (matvec A x)).

#[export] Instance dense_backend : Backend := {|
  matrix := dense;
  vector := list Z;
  scalar := Z;
  glob_rows := d_rows;
  glob_cols := d_cols;
  math_identity := 1%Z;
  math_zero := 0%Z;
  backend_clear := map (fun _ => 0%Z);
  backend_copy := fun src _ => src;
  backend_residual := dense_residual;
  backend_spmv := dense_spmv
|}.

(** One Richardson sweep with weight [w]: [tmp = rhs - A x; x += w * tmp]. *)
Definition richardson (A : dense) (rhs x tmp : list Z) (w : Z) :
  list Z * list Z :=
  let r := dense_residual rhs A x tmp in
  (map (fun xr => (fst xr + w * snd xr)%Z) (combine x r), r).

#[export] Instance dense_relax : Relax dense_backend := {|
  relax_type := unit;
  relax_params := Z;
  relax_params_default := 1%Z;
  relax_new := fun _ _ => tt;
  apply_pre := fun _ A rhs x tmp w => richardson A rhs x tmp w;
  apply_post := fun _ A rhs x tmp w => richardson A rhs x tmp w
|}.

Definition column (M : dense) (j : nat) : list Z :=
  map (fun r => nth j r 0%Z) (d_data M).

Definition matmul (X Y : dense) : dense := {|
  d_rows := d_rows X;
  d_cols := d_cols Y;
  d_data :=
    map (fun r => map (fun j => dot r (column Y j))
                      (List.seq 0 (N.to_nat (d_cols Y))))
        (d_data X)
|}.

(** No off-diagonal entry is nonzero. *)
Definition is_diagonal (A : dense) : bool :=
  forallb
    (fun ir =>
       forallb
         (fun je => Nat.eqb (fst ir) (fst je) || Z.eqb (snd je) 0)
         (combine (List.seq 0 (List.length (snd ir))) (snd ir)))
    (combine (List.seq 0 (List.length (d_data A))) (d_data A)).

(** Number of aggregates: rows paired two by two, none for a diagonal
    matrix. *)
Definition aggregates (A : dense) : N :=
  if is_diagonal A then 0 else (d_rows A + 1) / 2.

Definition dense_transfer (A : dense) (_ : unit) : dense * dense :=
  let n := N.to_nat (d_rows A) in
  let nc := N.to_nat (aggregates A) in
  ({| d_rows := d_rows A;
      d_cols := aggregates A;
      d_data :=
        map (fun i => map (fun j => if Nat.eqb j (Nat.div2 i) then 1%Z else 0%Z)
                          (List.seq 0 nc))
            (List.seq 0 n) |},
   {| d_rows := aggregates A;
      d_cols := d_rows A;
      d_data :=
        map (fun j => map (fun i => if Nat.eqb j (Nat.div2 i) then 1%Z else 0%Z)
                          (List.seq 0 n))
            (List.seq 0 nc) |}).

#[export] Instance dense_coarsening : Coarsening dense_backend := {|
  coarsening_params := unit;
  coarsening_params_default := tt;
  transfer_operators := dense_transfer;
  coarse_operator := fun A P R _ => matmul R (matmul A P)
|}.

Fixpoint assoc_get (p : list (string * N)) (name : string) : option N :=
  match p with
  | [] => None
  | (k, v) :: rest => if String.eqb k name then Some v else assoc_get rest name
  end.

Definition known_keys (p : list (string * N)) (names : list string) : bool :=
  forallb (fun kv => existsb (String.eqb (fst kv)) names) p.

(** A flat property tree of numeric entries; the two child trees are left at
    their defaults. *)
#[export] Instance dense_ptree :
  PropertyTree dense_backend dense_relax dense_coarsening := {|
  ptree := list (string * N);
  import_child_coarsening := fun _ => Ok tt;
  import_child_relax := fun _ => Ok 1%Z;
  import_value := fun p name dflt =>
    Ok (match assoc_get p name with Some v => v | None => dflt end);
  params_check := fun p names =>
    if known_keys p names then Ok tt else Throw "unknown parameter"
|}.

(** The 1-D Poisson matrix of size 4. *)
Definition poisson4 : dense := {|
  d_rows := 4;
  d_cols := 4;
  d_data := [[2; -1; 0; 0]; [-1; 2; -1; 0]; [0; -1; 2; -1]; [0; 0; -1; 2]]%Z
|}.

Definition diagonal4 : dense := {|
  d_rows := 4;
  d_cols := 4;
  d_data := [[2; 0; 0; 0]; [0; 3; 0; 0]; [0; 0; 2; 0]; [0; 0; 0; 5]]%Z
|}.

Definition wide2x3 : dense := {|
  d_rows := 2;
  d_cols := 3;
  d_data := [[1; 0; 2]; [0; 1; 0]]%Z
|}.

(** Parameters as a caller fills the structure in by hand. *)
Definition dense_params (ce ml n1 n2 nc pc : N) : params := {|
  coarsening := tt;
  relax := 1%Z;
  coarse_enough := ce;
  max_levels := ml;
  npre := n1;
  npost := n2;
  ncycle := nc;
  pre_cycles := pc
|}.

(** A machine whose caller vectors are [Ext 0 = rhs] and [Ext 1 = x], with
    work vectors of [n] zeros. *)
Definition dense_machine (rhs x : list Z) (n : nat) : machine := {|
  store := fun l =>
    match l with
    | Ext 0 => rhs
    | Ext _ => x
    | _ => repeat 0%Z n
    end;
  log := []
|}.

(** The hierarchy [init] builds for [poisson4] with [coarse_enough = 1]:
    4, 2 and 1 unknowns. *)
Definition poisson4_P0 : dense :=
  {| d_rows := 4; d_cols := 2; d_data := [[1; 0]; [1; 0]; [0; 1]; [0; 1]]%Z |}.

Definition poisson4_R0 : dense :=
  {| d_rows := 2; d_cols := 4; d_data := [[1; 1; 0; 0]; [0; 0; 1; 1]]%Z |}.

Definition poisson4_A1 : dense :=
  {| d_rows := 2; d_cols := 2; d_data := [[2; -1]; [-1; 2]]%Z |}.

Definition poisson4_P1 : dense :=
  {| d_rows := 2; d_cols := 1; d_data := [[1]; [1]]%Z |}.

Definition poisson4_R1 : dense :=
  {| d_rows := 1; d_cols := 2; d_data := [[1; 1]]%Z |}.

Definition poisson4_A2 : dense :=
  {| d_rows := 1; d_cols := 1; d_data := [[2]]%Z |}.

Definition poisson4_lvl0 : level :=
  {| level_A := poisson4; level_P := Some poisson4_P0;
     level_R := Some poisson4_R0; level_relax := tt |}.

Definition poisson4_lvl1 : level :=
  {| level_A := poisson4_A1; level_P := Some poisson4_P1;
     level_R := Some poisson4_R1; level_relax := tt |}.

Definition poisson4_lvl2 : level :=
  {| level_A := poisson4_A2; level_P := None; level_R := None;
     level_relax := tt |}.

Definition poisson4_levels : list level :=
  [poisson4_lvl0; poisson4_lvl1; poisson4_lvl2].

(** The preconditioner for [poisson4] with [coarse_enough = 1],
    [max_levels = 10] and the given cycle counts. *)
Definition poisson4_amg (n1 n2 nc pc : N) : amg :=
  {| prm := dense_params 1 10 n1 n2 nc pc; levels := poisson4_levels |}.

(** The level [init] builds for [diagonal4]: coarsening finds no
    aggregate. *)
Definition diagonal4_lvl : level :=
  {| level_A := diagonal4;
     level_P := Some {| d_rows := 4; d_cols := 0;
                        d_data := [[]; []; []; []] |};
     level_R := Some {| d_rows := 0; d_cols := 4; d_data := [] |};
     level_relax := tt |}.

(** * The rest of the facade, and vocabulary for its properties *)

(** [glob_nonzeros()] of [distributed_matrix<Backend>], which only the
    report reads. *)
Class MatrixStats (B : Backend) : Type := {
  glob_nonzeros : matrix -> N
}.

Section Facade.

Context {B : Backend} {Rx : Relax B} {C : Coarsening B}.

(** [amg::system_matrix_ptr()]: [levels.front().A].  [front()] of an empty
    list has no value. *)
Definition system_matrix_ptr (a : amg) : option matrix :=
  match levels a with
  | [] => None
  | l :: _ => Some (level_A l)
  end.

(** [amg::system_matrix()]: [*system_matrix_ptr()]. *)
Definition system_matrix (a : amg) : option matrix := system_matrix_ptr a.

(** [size_t] arithmetic of the report (64-bit [size_t]). *)
Definition size_t_modulus : N := 2 ^ 64.

Definition size_t_add (a b : N) : N := (a + b) mod size_t_modulus.

(** The first [BOOST_FOREACH] of [operator<<]: [sum_dof] and [sum_nnz],
    both starting from 0. *)
Definition report_sums {S : MatrixStats B} (lvls : list level) : N * N :=
  fold_left
    (fun acc lvl =>
       (size_t_add (fst acc) (glob_rows (level_A lvl)),
        size_t_add (snd acc) (glob_nonzeros (level_A lvl))))
    lvls (0, 0).

(** The vectors a cycle entered at level [i] with iterate [x] may write:
    [x], the scratch [t] of level [i] and below, and [f], [u] of the levels
    below [i]. *)
Definition cycle_writes (i : nat) (x l : loc) : bool :=
  loc_eqb x l ||
  match l with
  | Ext _ => false
  | LevT j => Nat.leb i j
  | LevF j => Nat.ltb i j
  | LevU j => Nat.ltb i j
  end.

(** An action that leaves the vectors selected by [keep] as they were. *)
Definition preserves (a : action) (keep : loc -> Prop) : Prop :=
  forall m m', a m = Some m' -> forall l, keep l -> store m' l = store m l.

(** An action that crashes from every machine. *)
Definition always_crashes (a : action) : Prop :=
  forall m, a m = None.

(** Two actions with the same effect on every machine. *)
Definition same_action (a b : action) : Prop :=
  forall m, a m = b m.

(** Parameters that agree on everything the cycle engine reads. *)
Definition same_cycle_params (p q : params) : Prop :=
  relax p = relax q /\ npre p = npre q /\ npost p = npost q /\
  ncycle p = ncycle q.

(** [p] with [ncycle] replaced. *)
Definition with_ncycle (p : params) (n : N) : params :=
  {| coarsening := coarsening p; relax := relax p;
     coarse_enough := coarse_enough p; max_levels := max_levels p;
     npre := npre p; npost := npost p; ncycle := n;
     pre_cycles := pre_cycles p |}.

(** [a] with [pre_cycles] replaced. *)
Definition with_pre_cycles (a : amg) (n : N) : amg :=
  {| prm :=
       {| coarsening := coarsening (prm a); relax := relax (prm a);
          coarse_enough := coarse_enough (prm a);
          max_levels := max_levels (prm a);
          npre := npre (prm a); npost := npost (prm a);
          ncycle := ncycle (prm a); pre_cycles := n |};
     levels := levels a |}.

(** A relaxation call that uses the scratch vector of level [j]. *)
Definition relaxes_at (j : nat) (e : event) : bool :=
  match e with
  | EvApplyPre _ _ _ _ (LevT k) => Nat.eqb k j
  | EvApplyPost _ _ _ _ (LevT k) => Nat.eqb k j
  | _ => false
  end.

(** Why hierarchy growth stopped, read off the last level: it is coarse
    enough and has no transfer operator, or it is still too large and keeps
    the zero-column [P] of a degenerate coarsening step. *)
Definition stopping_shape (p : params) (l : level) : Prop :=
  (level_P l = None /\ level_R l = None /\
   glob_rows (level_A l) <= coarse_enough p) \/
  (exists P R, level_P l = Some P /\ level_R l = Some R /\
               glob_cols P = 0 /\ coarse_enough p < glob_rows (level_A l)).

(** The plain total of a per-level figure over the hierarchy. *)
Definition total_of (f : level -> N) (lvls : list level) : N :=
  fold_right (fun l acc => f l + acc) 0 lvls.

(** Relaxation sweeps one cycle makes at the level [d] steps below the one
    it is entered at, when [depth] levels lie from there to the last one:
    a pre and a post sweep on each visit of the last level, [npre + npost]
    sweeps on each round elsewhere. *)
Definition sweeps_at (p : params) (depth d : nat) : nat :=
  if Nat.eqb (S d) depth
  then 2 * N.to_nat (ncycle p) ^ d
  else N.to_nat (ncycle p) ^ S d * (N.to_nat (npre p) + N.to_nat (npost p)).

End Facade.

(** Nonzero count of a dense matrix. *)
Definition dense_nonzeros (A : dense) : N :=
  N.of_nat
    (length (filter (fun e => negb (Z.eqb e 0)) (List.concat (d_data A)))).

#[export] Instance dense_stats : MatrixStats dense_backend := {|
  glob_nonzeros := dense_nonzeros
|}.

(** * Properties *)

Section CycleFacts.

Context {B : Backend} {Rx : Relax B} {C : Coarsening B}.

(** ** Stores, loops and call logs *)

Lemma loc_eqb_refl (l : loc) : loc_eqb l l = true.
Proof. destruct l; simpl; apply Nat.eqb_refl. Qed.

Lemma loc_eqb_neq (a b : loc) : a <> b -> loc_eqb a b = false.
Proof.
  intros Hne. destruct a, b; simpl; try reflexivity;
    apply Nat.eqb_neq; intros ->; apply Hne; reflexivity.
Qed.

Lemma upd_same (s : loc -> vector) (l : loc) (v : vector) : upd s l v l = v.
Proof. unfold upd. now rewrite loc_eqb_refl. Qed.

Lemma upd_other (s : loc -> vector) (l l' : loc) (v : vector) :
  l <> l' -> upd s l v l' = s l'.
Proof. intros H. unfold upd. now rewrite loc_eqb_neq. Qed.

Lemma times_zero (a : action) : times 0 a = skip.
Proof. reflexivity. Qed.

Lemma times_succ (n : N) (a : action) :
  times (N.succ n) a = a ;; times n a.
Proof. unfold times. rewrite N2Nat.inj_succ. reflexivity. Qed.

Lemma logs_skip : logs skip [].
Proof. intros m m' H. inversion H. now rewrite app_nil_r. Qed.

Lemma logs_seq (a b : action) (ea eb : list event) :
  logs a ea -> logs b eb -> logs (a ;; b) (ea ++ eb).
Proof.
  intros Ha Hb m m' H. unfold seq in H.
  destruct (a m) as [m1|] eqn:E; [|discriminate].
  rewrite (Hb _ _ H), (Ha _ _ E). now rewrite app_assoc.
Qed.

Lemma logs_repeat (n : nat) (a : action) (ea : list event) :
  logs a ea -> logs (repeat_action n a) (concat (repeat ea n)).
Proof.
  intros Ha. induction n as [|n IH]; simpl.
  - apply logs_skip.
  - apply logs_seq; assumption.
Qed.

Lemma logs_times (n : N) (a : action) (ea : list event) :
  logs a ea -> logs (times n a) (concat (repeat ea (N.to_nat n))).
Proof. apply logs_repeat. Qed.

Lemma concat_repeat_singleton (e : event) (n : nat) :
  concat (repeat [e] n) = repeat e n.
Proof. induction n as [|n IH]; simpl; [reflexivity|now rewrite IH]. Qed.

Lemma logs_apply_pre (p : params) (l : level) (rhs x t : loc) :
  logs (op_apply_pre p l rhs x t)
       [EvApplyPre (level_relax l) (level_A l) rhs x t].
Proof.
  intros m m' H. unfold op_apply_pre in H.
  destruct (apply_pre _ _ _ _ _ _). inversion H. reflexivity.
Qed.

Lemma logs_apply_post (p : params) (l : level) (rhs x t : loc) :
  logs (op_apply_post p l rhs x t)
       [EvApplyPost (level_relax l) (level_A l) rhs x t].
Proof.
  intros m m' H. unfold op_apply_post in H.
  destruct (apply_post _ _ _ _ _ _). inversion H. reflexivity.
Qed.

Lemma logs_residual (rhs : loc) (A : matrix) (x r : loc) :
  logs (op_residual rhs A x r) [EvResidual rhs A x r].
Proof. intros m m' H. inversion H. reflexivity. Qed.

Lemma logs_spmv (al : scalar) (M : matrix) (s : loc) (be : scalar) (d : loc) :
  logs (op_spmv al M s be d) [EvSpmv al M s be d].
Proof. intros m m' H. inversion H. reflexivity. Qed.

Lemma logs_clear (x : loc) : logs (op_clear x) [EvClear x].
Proof. intros m m' H. inversion H. reflexivity. Qed.

Lemma logs_deref (ptr : option matrix) (k : matrix -> action)
  (e : matrix -> event) :
  (forall M, logs (k M) [e M]) -> logs (deref ptr k) (deref_events ptr e).
Proof.
  intros Hk. destruct ptr as [M|]; simpl.
  - apply Hk.
  - intros m m' H. discriminate.
Qed.

(** The recursive case of [cycle], unfolded once. *)
Lemma cycle_cons2 (p : params) (lvl l' : level) (rest : list level)
  (i : nat) (rhs x : loc) :
  cycle p (lvl :: l' :: rest) i rhs x
  = times (ncycle p)
      (times (npre p) (op_apply_pre p lvl rhs x (LevT i)) ;;
       op_residual rhs (level_A lvl) x (LevT i) ;;
       deref (level_R lvl) (fun R =>
         op_spmv math_identity R (LevT i) math_zero (LevF (S i))) ;;
       op_clear (LevU (S i)) ;;
       cycle p (l' :: rest) (S i) (LevF (S i)) (LevU (S i)) ;;
       deref (level_P lvl) (fun P =>
         op_spmv math_identity P (LevU (S i)) math_identity x) ;;
       times (npost p) (op_apply_post p lvl rhs x (LevT i))).
Proof. reflexivity. Qed.

Lemma cycle_events_cons2 (p : params) (lvl l' : level) (rest : list level)
  (i : nat) (rhs x : loc) :
  cycle_events p (lvl :: l' :: rest) i rhs x
  = concat (repeat
      (repeat (EvApplyPre (level_relax lvl) (level_A lvl) rhs x (LevT i))
              (N.to_nat (npre p))
       ++ [EvResidual rhs (level_A lvl) x (LevT i)]
       ++ deref_events (level_R lvl) (fun R =>
            EvSpmv math_identity R (LevT i) math_zero (LevF (S i)))
       ++ [EvClear (LevU (S i))]
       ++ cycle_events p (l' :: rest) (S i) (LevF (S i)) (LevU (S i))
       ++ deref_events (level_P lvl) (fun P =>
            EvSpmv math_identity P (LevU (S i)) math_identity x)
       ++ repeat (EvApplyPost (level_relax lvl) (level_A lvl) rhs x (LevT i))
                 (N.to_nat (npost p)))
      (N.to_nat (ncycle p))).
Proof. reflexivity. Qed.

(** A run of [cycle] that comes back has made exactly the prescribed calls,
    in the prescribed order. *)
Lemma cycle_logs (p : params) (lvls : list level) :
  forall i rhs x, logs (cycle p lvls i rhs x) (cycle_events p lvls i rhs x).
Proof.
  induction lvls as [|lvl nxt IH]; intros i rhs x.
  - intros m m' H. discriminate.
  - destruct nxt as [|l' rest].
    + simpl. apply (logs_seq _ _ [_] [_]).
      * apply logs_apply_pre.
      * apply logs_apply_post.
    + rewrite cycle_events_cons2.
      rewrite cycle_cons2.
      apply logs_times.
      apply logs_seq.
      { rewrite <- concat_repeat_singleton. apply logs_times, logs_apply_pre. }
      apply logs_seq; [apply logs_residual|].
      apply logs_seq.
      { apply logs_deref. intros M. apply logs_spmv. }
      apply logs_seq; [apply logs_clear|].
      apply logs_seq; [apply IH|].
      apply logs_seq.
      { apply logs_deref. intros M. apply logs_spmv. }
      rewrite <- concat_repeat_singleton. apply logs_times, logs_apply_post.
Qed.

Lemma total_seq (a b : action) : total a -> total b -> total (a ;; b).
Proof.
  intros Ha Hb m. unfold seq. destruct (Ha m) as [m1 E]. rewrite E. apply Hb.
Qed.

Lemma total_repeat (n : nat) (a : action) : total a -> total (repeat_action n a).
Proof.
  intros Ha. induction n as [|n IH]; simpl.
  - intros m. now exists m.
  - now apply total_seq.
Qed.

Lemma total_apply_pre (p : params) (l : level) (rhs x t : loc) :
  total (op_apply_pre p l rhs x t).
Proof.
  intros m. unfold op_apply_pre. destruct (apply_pre _ _ _ _ _ _). eauto.
Qed.

Lemma total_apply_post (p : params) (l : level) (rhs x t : loc) :
  total (op_apply_post p l rhs x t).
Proof.
  intros m. unfold op_apply_post. destruct (apply_post _ _ _ _ _ _). eauto.
Qed.

Lemma total_deref (ptr : option matrix) (k : matrix -> action) :
  ptr <> None -> (forall M, total (k M)) -> total (deref ptr k).
Proof. intros Hp Hk. destruct ptr as [M|]; [apply Hk|congruence]. Qed.

(** On a hierarchy whose levels all have their transfer operators (the last
    one apart), [cycle] always comes back. *)
Lemma cycle_total (p : params) (lvls : list level) :
  transfers_present lvls ->
  forall i rhs x, total (cycle p lvls i rhs x).
Proof.
  induction lvls as [|lvl nxt IH]; intros Hw i rhs x.
  - destruct Hw.
  - destruct nxt as [|l' rest].
    + simpl. apply total_seq; [apply total_apply_pre|apply total_apply_post].
    + destruct Hw as (HP & HR & Hw).
      rewrite cycle_cons2.
      apply total_repeat.
      repeat apply total_seq.
      * apply total_repeat, total_apply_pre.
      * intros m; eexists; reflexivity.
      * apply total_deref; [assumption|]. intros M m; eexists; reflexivity.
      * intros m; eexists; reflexivity.
      * apply IH, Hw.
      * apply total_deref; [assumption|]. intros M m; eexists; reflexivity.
      * apply total_repeat, total_apply_post.
Qed.

(** The only vectors [cycle] clears are solution vectors [u] of levels below
    the one it is called on. *)
Lemma cycle_events_clear (p : params) (lvls : list level) :
  forall i rhs x l,
    In (EvClear l) (cycle_events p lvls i rhs x) ->
    exists j, l = LevU j /\ (i < j)%nat.
Proof.
  induction lvls as [|lvl nxt IH]; intros i rhs x l Hin.
  - destruct Hin.
  - destruct nxt as [|l' rest].
    + simpl in Hin. destruct Hin as [H|[H|[]]]; discriminate.
    + rewrite cycle_events_cons2 in Hin.
      apply in_concat in Hin. destruct Hin as (round & Hr & Hin).
      apply repeat_spec in Hr. subst round.
      apply in_app_or in Hin. destruct Hin as [Hin|Hin].
      { apply repeat_spec in Hin. discriminate. }
      destruct Hin as [Hin|Hin]; [discriminate|]. cbn [app] in Hin.
      apply in_app_or in Hin. destruct Hin as [Hin|Hin].
      { revert Hin. destruct (level_R lvl); simpl; intros Hin;
          [destruct Hin as [Hin|[]]; discriminate|destruct Hin]. }
      destruct Hin as [Hin|Hin].
      { inversion Hin. exists (S i). split; [reflexivity|lia]. }
      cbn [app] in Hin. apply in_app_or in Hin. destruct Hin as [Hin|Hin].
      { apply IH in Hin. destruct Hin as (j & -> & Hj).
        exists j. split; [reflexivity|lia]. }
      apply in_app_or in Hin. destruct Hin as [Hin|Hin].
      { revert Hin. destruct (level_P lvl); simpl; intros Hin;
          [destruct Hin as [Hin|[]]; discriminate|destruct Hin]. }
      apply repeat_spec in Hin. discriminate.
Qed.

(** A level with a successor and no restriction operator (what reaching the
    level limit leaves behind): any cycle with [ncycle > 0] dereferences the
    null pointer there. *)
Lemma cycle_without_restriction_crashes (p : params) (lvl nxt : level)
  (rest : list level) (i : nat) (rhs x : loc) (m : machine) :
  level_R lvl = None ->
  0 < ncycle p ->
  cycle p (lvl :: nxt :: rest) i rhs x m = None.
Proof.
  intros HR Hn. rewrite cycle_cons2, HR. unfold times.
  destruct (N.to_nat (ncycle p)) as [|n] eqn:E; [lia|].
  simpl repeat_action. unfold seq at 1. unfold seq at 1.
  destruct (total_repeat (N.to_nat (npre p))
              (op_apply_pre p lvl rhs x (LevT i))
              (total_apply_pre p lvl rhs x (LevT i)) m) as [m1 E1].
  rewrite E1. reflexivity.
Qed.

(** ** The cycle engine and the facade *)

(** C1. At a level that is not the last and has restriction [R] and
    prolongation [P], one call of the cycle engine is [ncycle] rounds of:
    [npre] pre-relaxation sweeps of [x] against [rhs]; the residual into the
    level's [t]; [f' = 1 * R t + 0 * f'] on the next level's [f]; clearing
    the next level's [u]; the cycle at the next level on [(f', u')];
    [x = 1 * P u' + 1 * x]; [npost] post-relaxation sweeps.  Both as a
    state transformer and as the sequence of calls made. *)
Theorem cycle_recursive_case (p : params) (lvl nxt : level)
  (rest : list level) (i : nat) (rhs x : loc) (R P : matrix) :
  level_R lvl = Some R ->
  level_P lvl = Some P ->
  cycle p (lvl :: nxt :: rest) i rhs x
    = times (ncycle p) (spec_round p lvl R P (nxt :: rest) i rhs x)
  /\ logs (cycle p (lvl :: nxt :: rest) i rhs x)
          (concat (repeat (spec_round_events p lvl R P (nxt :: rest) i rhs x)
                          (N.to_nat (ncycle p)))).
Proof.
  intros HR HP. split.
  - rewrite cycle_cons2, HR, HP. reflexivity.
  - pose proof (cycle_logs p (lvl :: nxt :: rest) i rhs x) as H.
    rewrite cycle_events_cons2, HR, HP in H. exact H.
Qed.

(** C3. With [pre_cycles > 0], [apply] clears [x] and then runs the cycle
    from the finest level [pre_cycles] times, each run starting from the
    machine the previous one left.  Its calls are the clear of [x] followed
    by [pre_cycles] times the calls of one full cycle. *)
Theorem apply_clears_then_cycles (a : amg) (rhs x : loc) :
  0 < pre_cycles (prm a) ->
  (forall m,
     amg_apply a rhs x m
     = times (pre_cycles (prm a)) (cycle (prm a) (levels a) 0 rhs x)
         (cleared x m))
  /\ logs (amg_apply a rhs x)
       (EvClear x ::
        concat (repeat (cycle_events (prm a) (levels a) 0 rhs x)
                       (N.to_nat (pre_cycles (prm a))))).
Proof.
  intros Hpos.
  assert (E : (pre_cycles (prm a) =? 0) = false) by (apply N.eqb_neq; lia).
  unfold amg_apply. rewrite E. cbn [negb]. split.
  - reflexivity.
  - apply (logs_seq _ _ [EvClear x]).
    + apply logs_clear.
    + apply logs_times, cycle_logs.
Qed.

(** C4. With [pre_cycles == 0], [apply] makes one call, the copy of [rhs]
    into [x]: no relaxation, no cycle.  Under the backend's copy contract
    [x] then equals [rhs], and no other vector has changed. *)
Theorem apply_zero_pre_cycles_is_copy (a : amg) (rhs x : loc) (m : machine) :
  (forall src dst : vector, backend_copy src dst = src) ->
  pre_cycles (prm a) = 0 ->
  amg_apply a rhs x m = Some (copied rhs x m)
  /\ log (copied rhs x m) = log m ++ [EvCopy rhs x]
  /\ store (copied rhs x m) x = store m rhs
  /\ (forall l, l <> x -> store (copied rhs x m) l = store m l).
Proof.
  intros Hcopy Hz. unfold amg_apply. rewrite Hz. simpl.
  split; [reflexivity|]. split; [reflexivity|]. split.
  - rewrite upd_same. apply Hcopy.
  - intros l Hl. apply upd_other. congruence.
Qed.

(** C9. The public [cycle(rhs, x)] is one run of the cycle engine from the
    first level on the machine as the caller left it; the calls it makes are
    those of that one cycle, and clearing the caller's [x] is not among
    them. *)
Theorem amg_cycle_single_cycle_keeps_guess (a : amg) (rhs : loc) (k : nat) :
  amg_cycle a rhs (Ext k) = cycle (prm a) (levels a) 0 rhs (Ext k)
  /\ logs (amg_cycle a rhs (Ext k))
          (cycle_events (prm a) (levels a) 0 rhs (Ext k))
  /\ ~ In (EvClear (Ext k)) (cycle_events (prm a) (levels a) 0 rhs (Ext k)).
Proof.
  split; [reflexivity|]. split.
  - apply cycle_logs.
  - intros Hin. apply cycle_events_clear in Hin.
    destruct Hin as (j & Hj & _). discriminate.
Qed.

(** C10. On a hierarchy of at least two levels with [ncycle == 0], [cycle]
    returns the machine it was given: no call is made and no vector
    changes.  Then [apply] with [pre_cycles > 0] only clears [x]. *)
Theorem ncycle_zero_does_nothing (a : amg) (l0 l1 : level)
  (rest : list level) (rhs x : loc) (m : machine) :
  levels a = l0 :: l1 :: rest ->
  ncycle (prm a) = 0 ->
  amg_cycle a rhs x m = Some m
  /\ (0 < pre_cycles (prm a) ->
      amg_apply a rhs x m = Some (cleared x m)
      /\ store (cleared x m) x = backend_clear (store m x)
      /\ (forall l, l <> x -> store (cleared x m) l = store m l)
      /\ log (cleared x m) = log m ++ [EvClear x]).
Proof.
  intros Hl Hn.
  assert (Hc : forall m', cycle (prm a) (levels a) 0 rhs x m' = Some m').
  { intros m'. rewrite Hl. simpl. rewrite Hn. reflexivity. }
  split; [apply Hc|].
  intros Hpos. split.
  - unfold amg_apply.
    replace (pre_cycles (prm a) =? 0) with false
      by (symmetry; apply N.eqb_neq; lia).
    change (times (pre_cycles (prm a)) (cycle (prm a) (levels a) 0 rhs x)
              (cleared x m) = Some (cleared x m)).
    unfold times.
    generalize (cleared x m). generalize (N.to_nat (pre_cycles (prm a))).
    induction n as [|n IH]; intros m'; simpl; [reflexivity|].
    unfold seq. rewrite Hc. apply IH.
  - split; [apply upd_same|]. split; [|reflexivity].
    intros l Hne. apply upd_other. congruence.
Qed.

End CycleFacts.

Section InitFacts.

Context {B : Backend} {Rx : Relax B} {C : Coarsening B}.

(** ** The construction loop *)

Lemma size_app (levels : list level) (l : level) :
  size (levels ++ [l]) = size levels + 1.
Proof. unfold size. rewrite length_app. simpl. lia. Qed.

(** What [step_down] does to a freshly built level. *)
Lemma step_down_new (p : params) (A P R : matrix) :
  transfer_operators A (coarsening p) = (P, R) ->
  step_down p (level_new p A)
  = ({| level_A := A; level_P := Some P; level_R := Some R;
        level_relax := relax_new A (relax p) |},
     if glob_cols P =? 0 then None
     else Some (coarse_operator A P R (coarsening p))).
Proof.
  intros HT. unfold step_down. simpl. rewrite HT.
  destruct (glob_cols P =? 0); reflexivity.
Qed.

(** Invariant rule for the loop: [I] holds at every loop head, [Q] of the
    state the loop is left in, whichever of its three exits is taken. *)
Lemma init_loop_rule (p : params) (I : matrix -> list level -> Prop)
  (Q : list level * option matrix -> Prop) :
  (forall A levels, I A levels ->
     (coarse_enough p <? glob_rows A) && (size levels <? max_levels p) = false ->
     Q (levels, Some A)) ->
  (forall A levels, I A levels ->
     coarse_enough p < glob_rows A -> size levels < max_levels p ->
     max_levels p <= size (levels ++ [level_new p A]) ->
     Q (levels ++ [level_new p A], Some A)) ->
  (forall A levels P R, I A levels ->
     coarse_enough p < glob_rows A ->
     size (levels ++ [level_new p A]) < max_levels p ->
     transfer_operators A (coarsening p) = (P, R) ->
     glob_cols P = 0 ->
     Q (levels ++ [{| level_A := A; level_P := Some P; level_R := Some R;
                      level_relax := relax_new A (relax p) |}], None)) ->
  (forall A levels P R, I A levels ->
     coarse_enough p < glob_rows A ->
     size (levels ++ [level_new p A]) < max_levels p ->
     transfer_operators A (coarsening p) = (P, R) ->
     glob_cols P <> 0 ->
     I (coarse_operator A P R (coarsening p))
       (levels ++ [{| level_A := A; level_P := Some P; level_R := Some R;
                      level_relax := relax_new A (relax p) |}])) ->
  forall fuel A levels r,
    I A levels -> init_loop fuel p A levels = Some r -> Q r.
Proof.
  intros Hexit Hbreak Hdegen Hstep.
  induction fuel as [|fuel IH]; intros A levels r HI Hrun; [discriminate|].
  simpl in Hrun.
  destruct ((coarse_enough p <? glob_rows A) && (size levels <? max_levels p))
    eqn:Hcond.
  - apply andb_prop in Hcond. destruct Hcond as [Hce Hsz].
    apply N.ltb_lt in Hce. apply N.ltb_lt in Hsz.
    destruct (max_levels p <=? size (levels ++ [level_new p A])) eqn:Hmax.
    + apply N.leb_le in Hmax. inversion Hrun. subst r.
      apply Hbreak; assumption.
    + apply N.leb_gt in Hmax.
      destruct (transfer_operators A (coarsening p)) as [P R] eqn:HT.
      rewrite (step_down_new p A P R HT) in Hrun.
      unfold move_to_backend in Hrun.
      destruct (glob_cols P =? 0) eqn:Hz.
      * apply N.eqb_eq in Hz. inversion Hrun. subst r.
        apply (Hdegen A levels P R); assumption.
      * apply N.eqb_neq in Hz.
        apply (IH _ _ r (Hstep A levels P R HI Hce Hmax HT Hz) Hrun).
  - inversion Hrun. subst r. apply Hexit; assumption.
Qed.

(** The loop comes back as soon as the fuel covers the levels that may still
    be pushed. *)
Lemma init_loop_total (p : params) :
  forall fuel A levels,
    (0 < fuel)%nat ->
    (N.to_nat (max_levels p) < fuel + length levels)%nat ->
    exists r, init_loop fuel p A levels = Some r.
Proof.
  induction fuel as [|fuel IH]; intros A levels Hpos Hfuel; [lia|].
  simpl.
  destruct ((coarse_enough p <? glob_rows A) && (size levels <? max_levels p))
    eqn:Hcond; [|eauto].
  destruct (max_levels p <=? size (levels ++ [level_new p A])) eqn:Hmax;
    [eauto|].
  apply N.leb_gt in Hmax. rewrite size_app in Hmax. unfold size in Hmax.
  destruct (step_down p (level_new p A)) as [l' [Anext|]]; [|eauto].
  apply IH.
  - lia.
  - rewrite length_app. simpl. lia.
Qed.

(** [init] never runs out of fuel: it returns a hierarchy or throws. *)
Lemma init_total (p : params) (A : matrix) : init p A <> NoFuel.
Proof.
  unfold init, precondition, bind_outcome.
  destruct (glob_rows A =? glob_cols A); [|discriminate].
  unfold init_from.
  destruct (init_loop_total p (init_fuel p) A []) as [r Hr].
  - unfold init_fuel. lia.
  - unfold init_fuel. simpl. lia.
  - rewrite Hr. discriminate.
Qed.

Lemma init_ok_inv (p : params) (A : matrix) (lvls : list level) :
  init p A = Ok lvls ->
  glob_rows A = glob_cols A /\
  exists r, init_loop (init_fuel p) p A [] = Some r /\ lvls = init_finish p r.
Proof.
  intros H. unfold init, precondition, bind_outcome, init_from in H.
  destruct (glob_rows A =? glob_cols A) eqn:Hsq; [|discriminate].
  apply N.eqb_eq in Hsq. split; [assumption|].
  destruct (init_loop (init_fuel p) p A []) as [r|]; [|discriminate].
  exists r. split; [reflexivity|]. simpl in H. now inversion H.
Qed.

(** The hierarchy is at most one level longer than [max_levels]. *)
Lemma init_size_le_succ_max (p : params) (A : matrix) (lvls : list level) :
  init p A = Ok lvls -> size lvls <= max_levels p + 1.
Proof.
  intros H. apply init_ok_inv in H. destruct H as (_ & r & Hr & ->).
  revert Hr.
  apply (init_loop_rule p
    (fun _ levels => levels = [] \/ size levels < max_levels p)
    (fun r => size (init_finish p r) <= max_levels p + 1)).
  - intros A0 levels HI _. simpl. rewrite size_app.
    destruct HI as [->|HI]; [unfold size; simpl|]; lia.
  - intros A0 levels _ _ Hsz _. simpl. rewrite !size_app. lia.
  - intros A0 levels P R _ _ Hsz _ _. simpl. rewrite size_app in *. lia.
  - intros A0 levels P R _ _ Hsz _ _. right. rewrite size_app in *.
    unfold size in *. simpl in *. lia.
  - left. reflexivity.
Qed.

(** ** Chains of levels *)

Lemma next_matrix_snoc (rest : list level) (l : level) (A : matrix) :
  next_matrix (rest ++ [l]) A = next_matrix rest (level_A l).
Proof. destruct rest; reflexivity. Qed.

Lemma chained_snoc (rel : level -> matrix -> Prop) (levels : list level)
  (l : level) (A : matrix) :
  chained rel levels (level_A l) -> rel l A -> chained rel (levels ++ [l]) A.
Proof.
  intros Hc Hl. induction levels as [|l0 rest IH]; simpl.
  - split; [exact Hl|exact I].
  - destruct Hc as [H0 Hc]. rewrite next_matrix_snoc. split; auto.
Qed.

Lemma chained_nth (rel : level -> matrix -> Prop) (front : list level)
  (last : level) :
  chained rel front (level_A last) ->
  forall i l l',
    nth_error (front ++ [last]) i = Some l ->
    nth_error (front ++ [last]) (S i) = Some l' ->
    rel l (level_A l').
Proof.
  induction front as [|l0 rest IH]; intros Hc i l l' Hl Hl'.
  - simpl in Hl'. destruct i; discriminate.
  - destruct Hc as [H0 Hc]. destruct i as [|i].
    + simpl in Hl. inversion Hl. subst l0.
      simpl in Hl'. destruct rest as [|l1 rest]; simpl in *;
        inversion Hl'; subst; exact H0.
    + apply (IH Hc i); assumption.
Qed.

(** With a coarsening that does not grow, the global row counts along the
    built hierarchy never increase. *)
Lemma init_rows_nonincreasing (p : params) (A : matrix) (lvls : list level) :
  coarsening_shrinks ->
  init p A = Ok lvls ->
  forall i l l',
    nth_error lvls i = Some l ->
    nth_error lvls (S i) = Some l' ->
    glob_rows (level_A l') <= glob_rows (level_A l).
Proof.
  intros Hshrink H. apply init_ok_inv in H. destruct H as (_ & r & Hr & ->).
  set (rel := fun (l : level) (M : matrix) => glob_rows M <= glob_rows (level_A l)).
  revert Hr.
  apply (init_loop_rule p
    (fun A0 levels => chained rel levels A0)
    (fun r => forall i l l',
       nth_error (init_finish p r) i = Some l ->
       nth_error (init_finish p r) (S i) = Some l' ->
       rel l (level_A l'))).
  - intros A0 levels HI _. simpl. apply chained_nth. exact HI.
  - intros A0 levels HI _ _ _. simpl. apply chained_nth.
    apply chained_snoc; [exact HI|]. unfold rel. simpl. lia.
  - intros A0 levels P R HI _ _ _ _. simpl. apply chained_nth. exact HI.
  - intros A0 levels P R HI _ _ HT _.
    apply chained_snoc; [exact HI|].
    unfold rel. simpl. apply (Hshrink _ _ _ _ HT).
  - exact I.
Qed.

(** C2 (defect). When pushing a level reaches the level limit, the loop is
    left by its first [break] with [A] still set, and the block after the
    loop pushes a level for the same matrix once more: the hierarchy ends in
    two levels for the one matrix, the first of them without transfer
    operators, and has [max_levels + 1] levels.  With [max_levels = 1] this
    happens on the first pass. *)
Theorem max_levels_limit_overshoots (p : params) (A : matrix)
  (levels : list level) (fuel : nat) :
  coarse_enough p < glob_rows A ->
  size levels + 1 = max_levels p ->
  let built := levels ++ [level_new p A; level_new p A] in
  init_from (S fuel) p A levels = Some built
  /\ size built = max_levels p + 1
  /\ ~ spec_depth_bounded p built
  /\ (levels = [] -> glob_rows A = glob_cols A -> init p A = Ok built).
Proof.
  intros Hce Hsz built.
  assert (Hloop : forall f, init_loop (S f) p A levels
                            = Some (levels ++ [level_new p A], Some A)).
  { intros f. simpl.
    assert (Hsz' : size levels < max_levels p) by lia.
    apply N.ltb_lt in Hce. apply N.ltb_lt in Hsz'. rewrite Hce, Hsz'. simpl.
    rewrite size_app.
    assert (Hm : (max_levels p <=? size levels + 1) = true)
      by (apply N.leb_le; lia).
    rewrite Hm. reflexivity. }
  assert (Hfin : init_finish p (levels ++ [level_new p A], Some A) = built).
  { unfold built. simpl. rewrite <- app_assoc. reflexivity. }
  assert (Hsize : size built = max_levels p + 1).
  { unfold built, size in *. rewrite length_app. simpl. lia. }
  split; [|split; [|split]].
  - unfold init_from. rewrite Hloop. unfold option_map. f_equal. exact Hfin.
  - exact Hsize.
  - unfold spec_depth_bounded. rewrite Hsize. lia.
  - intros Hnil Hsq.
    unfold init, precondition, bind_outcome, init_from, init_fuel.
    apply N.eqb_eq in Hsq. rewrite Hsq. subst levels. rewrite Hloop.
    reflexivity.
Qed.

(** C5. A square matrix with no more than [coarse_enough] global rows
    gives a hierarchy of exactly one level; and at a last level the cycle
    is one pre-relaxation call followed by one post-relaxation call,
    whatever [npre], [npost] and [ncycle] are. *)
Theorem coarse_enough_single_level :
  (forall (p : params) (A : matrix),
     glob_rows A = glob_cols A ->
     glob_rows A <= coarse_enough p ->
     init p A = Ok [level_new p A])
  /\
  (forall (p : params) (lvl : level) (i : nat) (rhs x : loc),
     cycle p [lvl] i rhs x
       = (op_apply_pre p lvl rhs x (LevT i) ;;
          op_apply_post p lvl rhs x (LevT i))
     /\ total (cycle p [lvl] i rhs x)
     /\ logs (cycle p [lvl] i rhs x)
          [EvApplyPre (level_relax lvl) (level_A lvl) rhs x (LevT i);
           EvApplyPost (level_relax lvl) (level_A lvl) rhs x (LevT i)]).
Proof.
  split.
  - intros p A Hsq Hce.
    unfold init, precondition, bind_outcome, init_from, init_fuel.
    apply N.eqb_eq in Hsq. rewrite Hsq. simpl.
    apply N.ltb_ge in Hce. rewrite Hce. reflexivity.
  - intros p lvl i rhs x. split; [reflexivity|]. split.
    + apply cycle_total. exact I.
    + apply (cycle_logs p [lvl]).
Qed.

(** C6. When the coarsening step taken at a loop head yields a
    prolongation with zero global columns, construction ends normally: the
    hierarchy is the levels built so far followed by the current level, and
    nothing after it.  In particular so for the very first step. *)
Theorem degenerate_coarsening_ends_hierarchy (p : params) (A : matrix)
  (levels : list level) (fuel : nat) (P R : matrix) :
  coarse_enough p < glob_rows A ->
  size levels + 1 < max_levels p ->
  transfer_operators A (coarsening p) = (P, R) ->
  glob_cols P = 0 ->
  let current := {| level_A := A; level_P := Some P; level_R := Some R;
                    level_relax := relax_new A (relax p) |} in
  init_from (S fuel) p A levels = Some (levels ++ [current])
  /\ (levels = [] -> glob_rows A = glob_cols A -> init p A = Ok [current]).
Proof.
  intros Hce Hsz HT Hz current.
  assert (Hloop : forall f, init_loop (S f) p A levels
                            = Some (levels ++ [current], None)).
  { intros f. simpl.
    assert (Hsz' : size levels < max_levels p) by lia.
    apply N.ltb_lt in Hce. apply N.ltb_lt in Hsz'. rewrite Hce, Hsz'. simpl.
    rewrite size_app.
    assert (Hm : (max_levels p <=? size levels + 1) = false)
      by (apply N.leb_gt; lia).
    rewrite Hm, (step_down_new p A P R HT).
    apply N.eqb_eq in Hz. rewrite Hz. reflexivity. }
  split.
  - unfold init_from. rewrite Hloop. reflexivity.
  - intros Hnil Hsq. subst levels.
    unfold init, precondition, bind_outcome, init_from, init_fuel.
    apply N.eqb_eq in Hsq. rewrite Hsq, Hloop. reflexivity.
Qed.

(** C7, as the code has it.  In a built hierarchy that stays within
    [max_levels], and with a coarsening collaborator whose operators have
    matching global sizes: every level that has a successor holds both [P]
    and [R], with [P.glob_cols = R.glob_rows] = the successor's global row
    count; the last level holds no transfer operator, unless growth stopped
    on a degenerate coarsening, in which case it keeps the zero-column [P]
    and the [R] of that step. *)
Theorem built_hierarchy_transfer_invariant (p : params) (A : matrix)
  (lvls : list level) :
  transfer_sizes_agree ->
  init p A = Ok lvls ->
  size lvls <= max_levels p ->
  (forall i l l',
     nth_error lvls i = Some l ->
     nth_error lvls (S i) = Some l' ->
     linked l (level_A l'))
  /\ (exists front last, lvls = front ++ [last] /\ coarsest_shape last).
Proof.
  intros Hsizes H. apply init_ok_inv in H. destruct H as (_ & r & Hr & ->).
  revert Hr.
  apply (init_loop_rule p
    (fun A0 levels => chained linked levels A0)
    (fun r =>
       size (init_finish p r) <= max_levels p ->
       (forall i l l',
          nth_error (init_finish p r) i = Some l ->
          nth_error (init_finish p r) (S i) = Some l' ->
          linked l (level_A l'))
       /\ (exists front last,
             init_finish p r = front ++ [last] /\ coarsest_shape last))).
  - intros A0 levels HI _ _. simpl. split.
    + apply chained_nth. exact HI.
    + exists levels, (level_new p A0). split; [reflexivity|].
      left. split; reflexivity.
  - intros A0 levels _ _ _ Hmax Hle. simpl in Hle.
    rewrite !size_app in *. lia.
  - intros A0 levels P R HI _ _ _ Hz _. simpl. split.
    + apply chained_nth. exact HI.
    + eexists levels, _. split; [reflexivity|].
      right. exists P, R. simpl. auto.
  - intros A0 levels P R HI _ _ HT _.
    apply chained_snoc; [exact HI|].
    destruct (Hsizes _ _ _ _ HT) as [H1 H2].
    exists P, R. simpl. auto.
  - exact I.
Qed.

(** C8, as the code has it.  Construction throws at once on a matrix that
    is not square, whatever the parameters; and importing parameters from a
    property tree throws when the tree gives [max_levels = 0]. *)
Theorem construction_preconditions :
  (forall (p : params) (A : matrix),
     glob_rows A <> glob_cols A ->
     amg_new A p = Throw "Matrix should be square!")
  /\
  (forall (PT : PropertyTree B Rx C) (pt : ptree),
     import_value pt "max_levels" (max_levels params_default) = Ok 0 ->
     forall v, params_import pt <> Ok v).
Proof.
  split.
  - intros p A Hne. unfold amg_new, init, precondition, bind_outcome.
    apply N.eqb_neq in Hne. rewrite Hne. reflexivity.
  - intros PT pt Hml v. unfold params_import.
    destruct (import_child_coarsening pt); cbn [bind_outcome]; try discriminate.
    destruct (import_child_relax pt); cbn [bind_outcome]; try discriminate.
    destruct (import_value pt "coarse_enough" _); cbn [bind_outcome];
      try discriminate.
    rewrite Hml. cbn [bind_outcome].
    destruct (import_value pt "npre" _); cbn [bind_outcome]; try discriminate.
    destruct (import_value pt "npost" _); cbn [bind_outcome]; try discriminate.
    destruct (import_value pt "ncycle" _); cbn [bind_outcome]; try discriminate.
    destruct (import_value pt "pre_cycles" _); cbn [bind_outcome];
      try discriminate.
    destruct (params_check pt _); cbn [bind_outcome]; discriminate.
Qed.

End InitFacts.

(** ** The dense instantiation *)

Lemma dense_copy_exact (src dst : list Z) : backend_copy src dst = src.
Proof. reflexivity. Qed.

Lemma aggregates_le (A : dense) : aggregates A <= d_rows A.
Proof.
  unfold aggregates. destruct (is_diagonal A); [lia|].
  destruct (N.eq_dec (d_rows A) 0) as [E|E].
  - rewrite E. reflexivity.
  - apply N.Div0.div_le_upper_bound. lia.
Qed.

Lemma dense_transfer_sizes_agree : transfer_sizes_agree.
Proof.
  intros A cp P R HT. cbn in HT. unfold dense_transfer in HT.
  inversion HT. split; reflexivity.
Qed.

Lemma dense_coarsening_shrinks : coarsening_shrinks.
Proof.
  intros A cp P R HT. cbn in HT. unfold dense_transfer in HT.
  inversion HT. cbn. apply aggregates_le.
Qed.

Example poisson4_hierarchy :
  init (dense_params 1 10 1 1 1 1) poisson4 = Ok poisson4_levels.
Proof. vm_compute. reflexivity. Qed.

Example poisson4_vcycle :
  option_map (fun m => store m (Ext 1))
    (amg_cycle (poisson4_amg 1 1 1 1) (Ext 0) (Ext 1)
       (dense_machine [1; 1; 1; 1]%Z [0; 0; 0; 0]%Z 4))
  = Some [1; 3; 3; 1]%Z.
Proof. vm_compute. reflexivity. Qed.

(** The initial guess matters to [cycle]. *)
Example poisson4_vcycle_from_guess :
  option_map (fun m => store m (Ext 1))
    (amg_cycle (poisson4_amg 1 1 1 1) (Ext 0) (Ext 1)
       (dense_machine [1; 1; 1; 1]%Z [1; 0; 0; 0]%Z 4))
  <> Some [1; 3; 3; 1]%Z.
Proof. vm_compute. discriminate. Qed.

Example overshoot_hierarchy_crashes :
  match amg_new poisson4 (dense_params 1 1 1 1 1 1) with
  | Ok a =>
    amg_apply a (Ext 0) (Ext 1)
      (dense_machine [1; 1; 1; 1]%Z [0; 0; 0; 0]%Z 4) = None
  | _ => False
  end.
Proof. vm_compute. reflexivity. Qed.

(** ** Instances of the theorems on the dense instantiation *)

Lemma cycle_recursive_case_witness :
  level_R poisson4_lvl0 = Some poisson4_R0 /\
  level_P poisson4_lvl0 = Some poisson4_P0 /\
  (cycle (dense_params 1 10 2 1 2 1) poisson4_levels 0 (Ext 0) (Ext 1)
   = times 2
       (spec_round (dense_params 1 10 2 1 2 1) poisson4_lvl0
          poisson4_R0 poisson4_P0 [poisson4_lvl1; poisson4_lvl2]
          0 (Ext 0) (Ext 1))
   /\ logs (cycle (dense_params 1 10 2 1 2 1) poisson4_levels 0 (Ext 0) (Ext 1))
        (concat (repeat
           (spec_round_events (dense_params 1 10 2 1 2 1) poisson4_lvl0
              poisson4_R0 poisson4_P0 [poisson4_lvl1; poisson4_lvl2]
              0 (Ext 0) (Ext 1)) 2))).
Proof.
  split; [reflexivity|]. split; [reflexivity|].
  apply (cycle_recursive_case (dense_params 1 10 2 1 2 1)
           poisson4_lvl0 poisson4_lvl1 [poisson4_lvl2] 0 (Ext 0) (Ext 1)
           poisson4_R0 poisson4_P0); reflexivity.
Defined.

Lemma apply_clears_then_cycles_witness :
  0 < pre_cycles (prm (poisson4_amg 1 1 1 2)) /\
  ((forall m,
      amg_apply (poisson4_amg 1 1 1 2) (Ext 0) (Ext 1) m
      = times 2
          (cycle (dense_params 1 10 1 1 1 2) poisson4_levels 0 (Ext 0) (Ext 1))
          (cleared (Ext 1) m))
   /\ logs (amg_apply (poisson4_amg 1 1 1 2) (Ext 0) (Ext 1))
        (EvClear (Ext 1) ::
         concat (repeat
           (cycle_events (dense_params 1 10 1 1 1 2) poisson4_levels 0
              (Ext 0) (Ext 1)) 2))).
Proof.
  split; [reflexivity|].
  apply (apply_clears_then_cycles (poisson4_amg 1 1 1 2)). reflexivity.
Defined.

Lemma apply_zero_pre_cycles_is_copy_witness :
  (forall src dst : list Z, backend_copy src dst = src) /\
  pre_cycles (prm (poisson4_amg 1 1 1 0)) = 0 /\
  (amg_apply (poisson4_amg 1 1 1 0) (Ext 0) (Ext 1)
     (dense_machine [1; 2; 3; 4]%Z [7; 7; 7; 7]%Z 4)
   = Some (copied (Ext 0) (Ext 1)
             (dense_machine [1; 2; 3; 4]%Z [7; 7; 7; 7]%Z 4))
   /\ log (copied (Ext 0) (Ext 1)
             (dense_machine [1; 2; 3; 4]%Z [7; 7; 7; 7]%Z 4))
      = log (dense_machine [1; 2; 3; 4]%Z [7; 7; 7; 7]%Z 4)
        ++ [EvCopy (Ext 0) (Ext 1)]
   /\ store (copied (Ext 0) (Ext 1)
               (dense_machine [1; 2; 3; 4]%Z [7; 7; 7; 7]%Z 4)) (Ext 1)
      = store (dense_machine [1; 2; 3; 4]%Z [7; 7; 7; 7]%Z 4) (Ext 0)
   /\ (forall l, l <> Ext 1 ->
       store (copied (Ext 0) (Ext 1)
                (dense_machine [1; 2; 3; 4]%Z [7; 7; 7; 7]%Z 4)) l
       = store (dense_machine [1; 2; 3; 4]%Z [7; 7; 7; 7]%Z 4) l)).
Proof.
  split; [intros src dst; reflexivity|]. split; [reflexivity|].
  apply (apply_zero_pre_cycles_is_copy (poisson4_amg 1 1 1 0)).
  - intros src dst. reflexivity.
  - reflexivity.
Defined.

Lemma coarse_enough_single_level_witness :
  glob_rows poisson4 = glob_cols poisson4 /\
  glob_rows poisson4 <= coarse_enough (dense_params 4 10 3 3 2 1) /\
  init (dense_params 4 10 3 3 2 1) poisson4
  = Ok [level_new (dense_params 4 10 3 3 2 1) poisson4].
Proof.
  split; [reflexivity|]. split; [vm_compute; discriminate|].
  apply (proj1 coarse_enough_single_level).
  - reflexivity.
  - vm_compute. discriminate.
Defined.

Lemma degenerate_coarsening_ends_hierarchy_witness :
  coarse_enough (dense_params 1 10 1 1 1 1) < glob_rows diagonal4 /\
  size (@nil level) + 1 < max_levels (dense_params 1 10 1 1 1 1) /\
  transfer_operators diagonal4 (coarsening (dense_params 1 10 1 1 1 1))
  = ({| d_rows := 4; d_cols := 0; d_data := [[]; []; []; []] |},
     {| d_rows := 0; d_cols := 4; d_data := [] |}) /\
  glob_cols {| d_rows := 4; d_cols := 0; d_data := [[]; []; []; []] |} = 0 /\
  (init_from 1 (dense_params 1 10 1 1 1 1) diagonal4 []
   = Some ([] ++ [diagonal4_lvl])
   /\ (@nil level = [] -> glob_rows diagonal4 = glob_cols diagonal4 ->
       init (dense_params 1 10 1 1 1 1) diagonal4 = Ok [diagonal4_lvl])).
Proof.
  split; [reflexivity|]. split; [reflexivity|].
  split; [reflexivity|]. split; [reflexivity|].
  apply (degenerate_coarsening_ends_hierarchy (dense_params 1 10 1 1 1 1)
           diagonal4 [] 0
           {| d_rows := 4; d_cols := 0; d_data := [[]; []; []; []] |}
           {| d_rows := 0; d_cols := 4; d_data := [] |});
    reflexivity.
Defined.

Lemma built_hierarchy_transfer_invariant_witness :
  transfer_sizes_agree /\
  init (dense_params 1 10 1 1 1 1) poisson4 = Ok poisson4_levels /\
  size poisson4_levels <= max_levels (dense_params 1 10 1 1 1 1) /\
  ((forall i l l',
      nth_error poisson4_levels i = Some l ->
      nth_error poisson4_levels (S i) = Some l' ->
      linked l (level_A l'))
   /\ (exists front last,
         poisson4_levels = front ++ [last] /\ coarsest_shape last)).
Proof.
  split; [exact dense_transfer_sizes_agree|].
  split; [vm_compute; reflexivity|].
  split; [vm_compute; discriminate|].
  apply (built_hierarchy_transfer_invariant (dense_params 1 10 1 1 1 1)
           poisson4 poisson4_levels).
  - exact dense_transfer_sizes_agree.
  - vm_compute. reflexivity.
  - vm_compute. discriminate.
Defined.

Lemma construction_preconditions_witness :
  glob_rows wide2x3 <> glob_cols wide2x3 /\
  amg_new wide2x3 (dense_params 1 10 1 1 1 1)
  = Throw "Matrix should be square!" /\
  import_value [("max_levels"%string, 0)] "max_levels"
    (max_levels params_default) = Ok 0 /\
  (forall v, params_import [("max_levels"%string, 0)] <> Ok v).
Proof.
  split; [discriminate|].
  split.
  - apply (proj1 construction_preconditions). discriminate.
  - split; [reflexivity|].
    apply (proj2 construction_preconditions dense_ptree).
    reflexivity.
Defined.

Lemma ncycle_zero_does_nothing_witness :
  levels (poisson4_amg 1 1 0 3)
  = poisson4_lvl0 :: poisson4_lvl1 :: [poisson4_lvl2] /\
  ncycle (prm (poisson4_amg 1 1 0 3)) = 0 /\
  (amg_cycle (poisson4_amg 1 1 0 3) (Ext 0) (Ext 1)
     (dense_machine [1; 2; 3; 4]%Z [7; 7; 7; 7]%Z 4)
   = Some (dense_machine [1; 2; 3; 4]%Z [7; 7; 7; 7]%Z 4)
   /\ (0 < pre_cycles (prm (poisson4_amg 1 1 0 3)) ->
       amg_apply (poisson4_amg 1 1 0 3) (Ext 0) (Ext 1)
         (dense_machine [1; 2; 3; 4]%Z [7; 7; 7; 7]%Z 4)
       = Some (cleared (Ext 1)
                 (dense_machine [1; 2; 3; 4]%Z [7; 7; 7; 7]%Z 4))
       /\ store (cleared (Ext 1)
                   (dense_machine [1; 2; 3; 4]%Z [7; 7; 7; 7]%Z 4)) (Ext 1)
          = backend_clear
              (store (dense_machine [1; 2; 3; 4]%Z [7; 7; 7; 7]%Z 4) (Ext 1))
       /\ (forall l, l <> Ext 1 ->
           store (cleared (Ext 1)
                    (dense_machine [1; 2; 3; 4]%Z [7; 7; 7; 7]%Z 4)) l
           = store (dense_machine [1; 2; 3; 4]%Z [7; 7; 7; 7]%Z 4) l)
       /\ log (cleared (Ext 1)
                 (dense_machine [1; 2; 3; 4]%Z [7; 7; 7; 7]%Z 4))
          = log (dense_machine [1; 2; 3; 4]%Z [7; 7; 7; 7]%Z 4)
            ++ [EvClear (Ext 1)])).
Proof.
  split; [reflexivity|]. split; [reflexivity|].
  apply (ncycle_zero_does_nothing (poisson4_amg 1 1 0 3)
           poisson4_lvl0 poisson4_lvl1 [poisson4_lvl2]); reflexivity.
Defined.

Lemma max_levels_limit_overshoots_witness :
  coarse_enough (dense_params 1 1 1 1 1 1) < glob_rows poisson4 /\
  size (@nil level) + 1 = max_levels (dense_params 1 1 1 1 1 1) /\
  (init_from 1 (dense_params 1 1 1 1 1 1) poisson4 []
   = Some ([] ++ [level_new (dense_params 1 1 1 1 1 1) poisson4;
                  level_new (dense_params 1 1 1 1 1 1) poisson4])
   /\ size ([] ++ [level_new (dense_params 1 1 1 1 1 1) poisson4;
                   level_new (dense_params 1 1 1 1 1 1) poisson4])
      = max_levels (dense_params 1 1 1 1 1 1) + 1
   /\ ~ spec_depth_bounded (dense_params 1 1 1 1 1 1)
          ([] ++ [level_new (dense_params 1 1 1 1 1 1) poisson4;
                  level_new (dense_params 1 1 1 1 1 1) poisson4])
   /\ (@nil level = [] -> glob_rows poisson4 = glob_cols poisson4 ->
       init (dense_params 1 1 1 1 1 1) poisson4
       = Ok ([] ++ [level_new (dense_params 1 1 1 1 1 1) poisson4;
                    level_new (dense_params 1 1 1 1 1 1) poisson4]))).
Proof.
  split; [reflexivity|]. split; [reflexivity|].
  apply (max_levels_limit_overshoots (dense_params 1 1 1 1 1 1) poisson4
           [] 0); reflexivity.
Defined.

(** ** Where the code departs from the stated invariants *)

(** C7, as stated, fails: on a diagonal matrix coarsening is degenerate, and
    the one level of the hierarchy, its coarsest, holds both a [P] and an
    [R]. *)
Lemma coarsest_level_keeps_transfer_operators :
  init (dense_params 1 10 1 1 1 1) diagonal4 = Ok [diagonal4_lvl]
  /\ level_P diagonal4_lvl <> None
  /\ level_R diagonal4_lvl <> None
  /\ ~ spec_transfer_invariant [diagonal4_lvl].
Proof.
  split; [vm_compute; reflexivity|].
  split; [discriminate|]. split; [discriminate|].
  intros [_ (front & last & Heq & HP & _)].
  apply (app_inj_tail [] front) in Heq. destruct Heq as [_ <-].
  discriminate.
Qed.

(** C8, as stated, fails: a parameter structure with [max_levels] set to 0
    by hand is accepted, and a one-level hierarchy is built. *)
Lemma max_levels_zero_accepted :
  max_levels (dense_params 1024 0 1 1 1 1) = 0
  /\ amg_new poisson4 (dense_params 1024 0 1 1 1 1)
     = Ok {| prm := dense_params 1024 0 1 1 1 1;
             levels := [level_new (dense_params 1024 0 1 1 1 1) poisson4] |}
  /\ ~ spec_construction_rejects (dense_params 1024 0 1 1 1 1) poisson4.
Proof.
  split; [reflexivity|]. split; [vm_compute; reflexivity|].
  intros H. specialize (H (or_intror eq_refl)).
  vm_compute in H. discriminate.
Qed.

(** The depth bound fails at [max_levels = 1]. *)
Example depth_bound_violated :
  init (dense_params 1 1 1 1 1 1) poisson4
  = Ok [level_new (dense_params 1 1 1 1 1 1) poisson4;
        level_new (dense_params 1 1 1 1 1 1) poisson4]
  /\ ~ spec_depth_bounded (dense_params 1 1 1 1 1 1)
         [level_new (dense_params 1 1 1 1 1 1) poisson4;
          level_new (dense_params 1 1 1 1 1 1) poisson4].
Proof.
  split; [vm_compute; reflexivity|].
  unfold spec_depth_bounded. vm_compute. intros H. apply H. reflexivity.
Qed.

(** * Further properties of the code *)

Section MoreInitFacts.

Context {B : Backend} {Rx : Relax B} {C : Coarsening B}.

Lemma nth_error_front (front : list level) (last l : level) (i : nat) :
  nth_error (front ++ [last]) i = Some l ->
  (S i < length (front ++ [last]))%nat ->
  nth_error front i = Some l.
Proof.
  intros Hn Hlt. rewrite length_app in Hlt. simpl in Hlt.
  rewrite nth_error_app1 in Hn by lia. exact Hn.
Qed.

Lemma init_throw_inv (p : params) (A : matrix) :
  glob_rows A <> glob_cols A -> init p A = Throw "Matrix should be square!".
Proof.
  intros Hne. unfold init, precondition, bind_outcome.
  apply N.eqb_neq in Hne. rewrite Hne. reflexivity.
Qed.

Lemma init_square_ok (p : params) (A : matrix) :
  glob_rows A = glob_cols A -> exists lvls, init p A = Ok lvls.
Proof.
  intros Hsq.
  destruct (init_loop_total p (init_fuel p) A []) as [r Hr].
  - unfold init_fuel. lia.
  - unfold init_fuel. simpl. lia.
  - exists (init_finish p r).
    unfold init, precondition, bind_outcome, init_from.
    apply N.eqb_eq in Hsq. rewrite Hsq, Hr. reflexivity.
Qed.

(** X1. Construction returns a hierarchy exactly when the matrix is square:
    whatever [max_levels] and whatever the coarsening collaborator returns,
    the loop ends; on any other matrix it throws. *)
Theorem init_ok_iff_square (p : params) (A : matrix) :
  ((exists lvls, init p A = Ok lvls) <-> glob_rows A = glob_cols A)
  /\ ((exists msg, init p A = Throw msg) <-> glob_rows A <> glob_cols A).
Proof.
  split; split.
  - intros [lvls H]. apply init_ok_inv in H. tauto.
  - apply init_square_ok.
  - intros [msg H] Hsq. destruct (init_square_ok p A Hsq) as [lvls H'].
    congruence.
  - intros Hne. eexists. apply init_throw_inv. exact Hne.
Qed.

(** The first level of the loop state is a level of the input matrix. *)
Lemma init_first_level (p : params) (A : matrix) (lvls : list level) :
  init p A = Ok lvls ->
  exists l rest, lvls = l :: rest /\ level_A l = A.
Proof.
  intros H. apply init_ok_inv in H. destruct H as (_ & r & Hr & ->).
  revert Hr.
  apply (init_loop_rule p
    (fun A0 levels => next_matrix levels A0 = A)
    (fun r => exists l rest, init_finish p r = l :: rest /\ level_A l = A)).
  - intros A0 [|l rest] HI _; simpl in *.
    + exists (level_new p A0), []. split; [reflexivity|exact HI].
    + exists l, (rest ++ [level_new p A0]). split; [reflexivity|exact HI].
  - intros A0 [|l rest] HI _ _ _; simpl in *.
    + exists (level_new p A0), [level_new p A0]. split; [reflexivity|exact HI].
    + eexists l, _. split; [reflexivity|exact HI].
  - intros A0 [|l rest] P R HI _ _ _ _; simpl in *.
    + eexists _, []. split; [reflexivity|exact HI].
    + eexists l, _. split; [reflexivity|exact HI].
  - intros A0 [|l rest] P R HI _ _ _ _; simpl in *; exact HI.
  - reflexivity.
Qed.

(** X2. The preconditioner built from [A] reports [A] as its system matrix:
    the first level always exists and holds the input matrix. *)
Theorem system_matrix_is_input (p : params) (A : matrix) (a : amg) :
  amg_new A p = Ok a ->
  system_matrix a = Some A /\ prm a = p.
Proof.
  intros H. unfold amg_new, bind_outcome in H.
  destruct (init p A) as [lvls| |] eqn:Hi; try discriminate.
  inversion H. subst a. clear H.
  destruct (init_first_level p A lvls Hi) as (l & rest & -> & HA).
  unfold system_matrix, system_matrix_ptr. simpl. now rewrite HA.
Qed.

(** X3. A built hierarchy has at least one level and at most
    [max_levels + 1]. *)
Theorem init_size_bounds (p : params) (A : matrix) (lvls : list level) :
  init p A = Ok lvls ->
  1 <= size lvls /\ size lvls <= max_levels p + 1.
Proof.
  intros H. split.
  - destruct (init_first_level p A lvls H) as (l & rest & -> & _).
    unfold size. simpl. lia.
  - apply (init_size_le_succ_max p A). exact H.
Qed.

(** The levels pushed inside the loop are above the threshold. *)
Lemma init_front_above_threshold (p : params) (A : matrix)
  (lvls : list level) :
  init p A = Ok lvls ->
  exists front last,
    lvls = front ++ [last] /\
    Forall (fun l => coarse_enough p < glob_rows (level_A l)) front.
Proof.
  intros H. apply init_ok_inv in H. destruct H as (_ & r & Hr & ->).
  revert Hr.
  apply (init_loop_rule p
    (fun _ levels =>
       Forall (fun l => coarse_enough p < glob_rows (level_A l)) levels)
    (fun r => exists front last,
       init_finish p r = front ++ [last] /\
       Forall (fun l => coarse_enough p < glob_rows (level_A l)) front)).
  - intros A0 levels HI _. simpl. eauto.
  - intros A0 levels HI Hce _ _. simpl.
    exists (levels ++ [level_new p A0]), (level_new p A0).
    split; [reflexivity|]. apply Forall_app. split; [exact HI|].
    constructor; [exact Hce|constructor].
  - intros A0 levels P R HI _ _ _ _. simpl. eauto.
  - intros A0 levels P R HI Hce _ _ _.
    apply Forall_app. split; [exact HI|]. constructor; [exact Hce|constructor].
  - constructor.
Qed.

(** X4. Every level of a built hierarchy other than the last has more than
    [coarse_enough] global rows. *)
Theorem levels_before_last_above_threshold (p : params) (A : matrix)
  (lvls : list level) (i : nat) (l : level) :
  init p A = Ok lvls ->
  nth_error lvls i = Some l ->
  (S i < length lvls)%nat ->
  coarse_enough p < glob_rows (level_A l).
Proof.
  intros H Hn Hlt.
  destruct (init_front_above_threshold p A lvls H) as (front & last & -> & HF).
  apply nth_error_front in Hn; [|exact Hlt].
  rewrite Forall_forall in HF. apply HF. eapply nth_error_In. exact Hn.
Qed.

(** X5. In a built hierarchy that stays within [max_levels], the last level
    tells why growth stopped: it is coarse enough and holds no transfer
    operator, or it is still above the threshold and holds the zero-column
    [P] of a degenerate coarsening. *)
Theorem last_level_stopping_shape (p : params) (A : matrix)
  (lvls : list level) :
  init p A = Ok lvls ->
  size lvls <= max_levels p ->
  exists front last, lvls = front ++ [last] /\ stopping_shape p last.
Proof.
  intros H. apply init_ok_inv in H. destruct H as (_ & r & Hr & ->).
  revert Hr.
  apply (init_loop_rule p
    (fun _ levels => levels = [] \/ size levels < max_levels p)
    (fun r =>
       size (init_finish p r) <= max_levels p ->
       exists front last,
         init_finish p r = front ++ [last] /\ stopping_shape p last)).
  - intros A0 levels HI Hcond Hle. simpl in *.
    exists levels, (level_new p A0). split; [reflexivity|].
    left. simpl. split; [reflexivity|]. split; [reflexivity|].
    rewrite size_app in Hle.
    apply andb_false_iff in Hcond. destruct Hcond as [Hc|Hc].
    + apply N.ltb_ge in Hc. exact Hc.
    + apply N.ltb_ge in Hc. destruct HI as [->|HI]; [|lia].
      unfold size in *. simpl in *. lia.
  - intros A0 levels _ _ _ Hmax Hle. simpl in Hle.
    rewrite !size_app in *. lia.
  - intros A0 levels P R _ Hce _ _ Hz _. simpl.
    eexists levels, _. split; [reflexivity|].
    right. exists P, R. simpl. auto.
  - intros A0 levels P R _ _ Hsz _ _. right. rewrite size_app in *.
    lia.
  - left. reflexivity.
Qed.

End MoreInitFacts.

Section MoreCycleFacts.

Context {B : Backend} {Rx : Relax B} {C : Coarsening B}.

Lemma total_times (n : N) (a : action) : total a -> total (times n a).
Proof. apply total_repeat. Qed.

Lemma total_clear (x : loc) : total (op_clear x).
Proof. intros m. eexists. reflexivity. Qed.

Lemma total_copy (rhs x : loc) : total (op_copy rhs x).
Proof. intros m. eexists. reflexivity. Qed.

Lemma chained_transfers_present (front : list level) (last : level)
  (M : matrix) :
  chained (fun l _ => level_P l <> None /\ level_R l <> None) front M ->
  transfers_present (front ++ [last]).
Proof.
  induction front as [|l rest IH]; intros Hc.
  - exact I.
  - destruct Hc as [[HP HR] Hc]. specialize (IH Hc).
    destruct rest as [|l1 rest]; simpl in *; auto.
Qed.

Lemma chained_ignore_matrix (rel : level -> Prop) (levels : list level)
  (M M' : matrix) :
  chained (fun l _ => rel l) levels M -> chained (fun l _ => rel l) levels M'.
Proof.
  induction levels as [|l rest IH]; simpl; [auto|].
  intros [H Hc]. split; auto.
Qed.

(** Within [max_levels], every level but the last got its transfer
    operators. *)
Lemma init_transfers_present (p : params) (A : matrix) (lvls : list level) :
  init p A = Ok lvls ->
  size lvls <= max_levels p ->
  transfers_present lvls.
Proof.
  intros H. apply init_ok_inv in H. destruct H as (_ & r & Hr & ->).
  set (rel := fun (l : level) (_ : matrix) =>
                level_P l <> None /\ level_R l <> None).
  revert Hr.
  apply (init_loop_rule p
    (fun A0 levels => chained rel levels A0)
    (fun r => size (init_finish p r) <= max_levels p ->
              transfers_present (init_finish p r))).
  - intros A0 levels HI _ _. simpl.
    apply (chained_transfers_present levels _ A0). exact HI.
  - intros A0 levels _ _ _ Hmax Hle. simpl in Hle.
    rewrite !size_app in *. lia.
  - intros A0 levels P R HI _ _ _ _ _. simpl.
    apply (chained_transfers_present levels _ A0). exact HI.
  - intros A0 levels P R HI _ _ _ _.
    apply chained_snoc.
    + apply (chained_ignore_matrix
               (fun l => level_P l <> None /\ level_R l <> None) levels A0).
      exact HI.
    + unfold rel. simpl. split; discriminate.
  - exact I.
Qed.

(** X6. On a preconditioner whose hierarchy stays within [max_levels],
    neither [cycle] nor [apply] can dereference a null operator: from every
    machine they come back. *)
Theorem built_hierarchy_never_crashes (p : params) (A : matrix) (a : amg) :
  amg_new A p = Ok a ->
  size (levels a) <= max_levels p ->
  forall rhs x, total (amg_cycle a rhs x) /\ total (amg_apply a rhs x).
Proof.
  intros H Hle rhs x. unfold amg_new, bind_outcome in H.
  destruct (init p A) as [lvls| |] eqn:Hi; try discriminate.
  inversion H. subst a. clear H. simpl in Hle.
  pose proof (init_transfers_present p A lvls Hi Hle) as Hw.
  split.
  - apply cycle_total. exact Hw.
  - unfold amg_apply. simpl.
    destruct (negb (pre_cycles p =? 0)).
    + apply total_seq; [apply total_clear|].
      apply total_times, cycle_total. exact Hw.
    + apply total_copy.
Qed.

Lemma crashes_seq_l (a b : action) :
  always_crashes a -> always_crashes (a ;; b).
Proof. intros Ha m. unfold seq. now rewrite Ha. Qed.

Lemma crashes_seq_r (a b : action) :
  always_crashes b -> always_crashes (a ;; b).
Proof. intros Hb m. unfold seq. destruct (a m); [apply Hb|reflexivity]. Qed.

Lemma crashes_times (n : N) (a : action) :
  0 < n -> always_crashes a -> always_crashes (times n a).
Proof.
  intros Hn Ha. unfold times.
  destruct (N.to_nat n) as [|k] eqn:E; [lia|].
  simpl. apply crashes_seq_l. exact Ha.
Qed.

(** A cycle entered above a level that has a successor but no restriction
    operator crashes, however many sound levels come first. *)
Lemma cycle_crashes_through (p : params) (l l' : level) :
  level_R l = None ->
  0 < ncycle p ->
  forall front i rhs x,
    always_crashes (cycle p (front ++ [l; l']) i rhs x).
Proof.
  intros HR Hn.
  induction front as [|l0 rest IH]; intros i rhs x.
  - intros m. apply cycle_without_restriction_crashes; assumption.
  - assert (Hsub : always_crashes
              (cycle p (rest ++ [l; l']) (S i) (LevF (S i)) (LevU (S i))))
      by apply IH.
    destruct rest as [|l1 rest]; simpl app in *.
    + rewrite cycle_cons2. apply crashes_times; [assumption|].
      do 4 apply crashes_seq_r. apply crashes_seq_l. exact Hsub.
    + rewrite cycle_cons2. apply crashes_times; [assumption|].
      do 4 apply crashes_seq_r. apply crashes_seq_l. exact Hsub.
Qed.

(** A hierarchy longer than a positive [max_levels] ends in two levels the
    first of which has no restriction operator. *)
Lemma init_overshoot_shape (p : params) (A : matrix) (lvls : list level) :
  init p A = Ok lvls ->
  max_levels p < size lvls ->
  0 < max_levels p ->
  exists front l l', lvls = front ++ [l; l'] /\ level_R l = None.
Proof.
  intros H. apply init_ok_inv in H. destruct H as (_ & r & Hr & ->).
  revert Hr.
  apply (init_loop_rule p
    (fun _ levels => levels = [] \/ size levels < max_levels p)
    (fun r =>
       max_levels p < size (init_finish p r) -> 0 < max_levels p ->
       exists front l l',
         init_finish p r = front ++ [l; l'] /\ level_R l = None)).
  - intros A0 levels HI _ Hlt Hpos. simpl in Hlt. rewrite size_app in Hlt.
    destruct HI as [->|HI]; [unfold size in Hlt; simpl in Hlt|]; lia.
  - intros A0 levels _ _ _ _ _ _. simpl.
    exists levels, (level_new p A0), (level_new p A0).
    split; [|reflexivity]. rewrite <- app_assoc. reflexivity.
  - intros A0 levels P R _ _ Hsz _ _ Hlt _. simpl in Hlt.
    rewrite !size_app in *. lia.
  - intros A0 levels P R _ _ Hsz _ _. right. rewrite size_app in *. lia.
  - left. reflexivity.
Qed.

(** X7. On a preconditioner whose hierarchy is longer than a positive
    [max_levels], every cycle with [ncycle > 0] dereferences a null
    restriction operator, from every machine; and so does [apply] when
    [pre_cycles > 0]. *)
Theorem overshoot_hierarchy_always_crashes (p : params) (A : matrix)
  (a : amg) :
  amg_new A p = Ok a ->
  max_levels p < size (levels a) ->
  0 < max_levels p ->
  0 < ncycle p ->
  forall rhs x,
    always_crashes (amg_cycle a rhs x)
    /\ (0 < pre_cycles p -> always_crashes (amg_apply a rhs x)).
Proof.
  intros H Hlt Hpos Hn rhs x. unfold amg_new, bind_outcome in H.
  destruct (init p A) as [lvls| |] eqn:Hi; try discriminate.
  inversion H. subst a. clear H. simpl in Hlt.
  destruct (init_overshoot_shape p A lvls Hi Hlt Hpos)
    as (front & l & l' & -> & HR).
  assert (Hc : always_crashes (cycle p (front ++ [l; l']) 0 rhs x))
    by (apply cycle_crashes_through; assumption).
  split; [exact Hc|].
  intros Hpc. unfold amg_apply. simpl.
  replace (pre_cycles p =? 0) with false
    by (symmetry; apply N.eqb_neq; lia).
  simpl negb. cbv iota. apply crashes_seq_r, crashes_times; assumption.
Qed.

Lemma op_apply_pre_params (p q : params) (l : level) (rhs x t : loc) :
  relax p = relax q -> op_apply_pre p l rhs x t = op_apply_pre q l rhs x t.
Proof. intros H. unfold op_apply_pre. rewrite H. reflexivity. Qed.

Lemma op_apply_post_params (p q : params) (l : level) (rhs x t : loc) :
  relax p = relax q -> op_apply_post p l rhs x t = op_apply_post q l rhs x t.
Proof. intros H. unfold op_apply_post. rewrite H. reflexivity. Qed.

(** The cycle engine reads [relax], [npre], [npost] and [ncycle] of the
    parameters and nothing else. *)
Lemma cycle_same_params (p q : params) (lvls : list level) :
  same_cycle_params p q ->
  forall i rhs x, cycle p lvls i rhs x = cycle q lvls i rhs x.
Proof.
  intros (Hr & H1 & H2 & Hn).
  induction lvls as [|lvl nxt IH]; intros i rhs x; [reflexivity|].
  destruct nxt as [|l' rest].
  - simpl. rewrite (op_apply_pre_params p q), (op_apply_post_params p q);
      auto.
  - rewrite !cycle_cons2. rewrite IH, H1, H2, Hn.
    rewrite (op_apply_pre_params p q), (op_apply_post_params p q); auto.
Qed.

(** X9. Two parameter sets that agree on [relax], [npre], [npost] and
    [ncycle] give the same cycle on every hierarchy: [coarsening],
    [coarse_enough], [max_levels] and [pre_cycles] are not read while
    cycling. *)
Theorem cycle_ignores_construction_params (p q : params)
  (lvls : list level) (i : nat) (rhs x : loc) :
  same_cycle_params p q ->
  cycle p lvls i rhs x = cycle q lvls i rhs x
  /\ cycle_events p lvls i rhs x = cycle_events q lvls i rhs x.
Proof.
  intros Hs. split; [apply cycle_same_params; exact Hs|].
  destruct Hs as (Hr & H1 & H2 & Hn).
  revert i rhs x.
  induction lvls as [|lvl nxt IH]; intros i rhs x; [reflexivity|].
  destruct nxt as [|l' rest]; [reflexivity|].
  rewrite !cycle_events_cons2. rewrite IH, H1, H2, Hn. reflexivity.
Qed.

Lemma same_action_repeat (n : nat) (a b : action) :
  same_action a b -> same_action (repeat_action n a) (repeat_action n b).
Proof.
  intros Hab. induction n as [|n IH]; intros m; [reflexivity|].
  simpl. unfold seq. rewrite Hab. destruct (b m); [apply IH|reflexivity].
Qed.

Lemma seq_skip_r (a : action) : same_action (a ;; skip) a.
Proof. intros m. unfold seq, skip. destruct (a m); reflexivity. Qed.

Lemma repeat_action_snoc (n : nat) (a : action) :
  same_action (repeat_action (n + 1) a) (repeat_action n a ;; a).
Proof.
  induction n as [|n IH]; intros m; simpl.
  - unfold seq, skip. destruct (a m); reflexivity.
  - unfold seq. destruct (a m) as [m1|]; [|reflexivity].
    specialize (IH m1). unfold seq in IH. exact IH.
Qed.

(** X11. On a hierarchy of two levels a cycle with [ncycle = n] is the
    V-cycle ([ncycle = 1]) run [n] times in a row: the last level does not
    read [ncycle]. *)
Theorem two_level_cycle_is_repeated_vcycle (p : params) (l0 l1 : level)
  (i : nat) (rhs x : loc) :
  same_action
    (cycle p [l0; l1] i rhs x)
    (times (ncycle p) (cycle (with_ncycle p 1) [l0; l1] i rhs x)).
Proof.
  intros m. rewrite !cycle_cons2.
  change (ncycle (with_ncycle p 1)) with 1.
  change (npre (with_ncycle p 1)) with (npre p).
  change (npost (with_ncycle p 1)) with (npost p).
  cbn [cycle].
  rewrite !(op_apply_pre_params (with_ncycle p 1) p) by reflexivity.
  rewrite !(op_apply_post_params (with_ncycle p 1) p) by reflexivity.
  symmetry.
  refine (same_action_repeat (N.to_nat (ncycle p)) (times 1 _) _ _ m).
  intros m'. apply (seq_skip_r _ m').
Qed.

(** X12. For [n > 0], [apply] with [pre_cycles = n + 1] is [apply] with
    [pre_cycles = n] followed by one more public [cycle] on the same [x]. *)
Theorem apply_one_more_cycle (a : amg) (n : N) (rhs x : loc) :
  0 < n ->
  same_action
    (amg_apply (with_pre_cycles a (n + 1)) rhs x)
    (amg_apply (with_pre_cycles a n) rhs x ;; amg_cycle a rhs x).
Proof.
  intros Hn m. unfold amg_apply, amg_cycle. simpl.
  replace (n + 1 =? 0) with false by (symmetry; apply N.eqb_neq; lia).
  replace (n =? 0) with false by (symmetry; apply N.eqb_neq; lia).
  cbn [negb].
  rewrite (cycle_same_params (prm (with_pre_cycles a (n + 1))) (prm a))
    by (repeat split; reflexivity).
  rewrite (cycle_same_params (prm (with_pre_cycles a n)) (prm a))
    by (repeat split; reflexivity).
  unfold times. rewrite N2Nat.inj_add. change (N.to_nat 1) with 1%nat.
  unfold seq.
  destruct (op_clear x m) as [m1|]; [|reflexivity].
  pose proof (repeat_action_snoc (N.to_nat n)
                (cycle (prm a) (levels a) 0 rhs x) m1) as Hs.
  unfold seq in Hs. exact Hs.
Qed.

End MoreCycleFacts.

Section FrameFacts.

Context {B : Backend} {Rx : Relax B} {C : Coarsening B}.

Lemma preserves_weaken (a : action) (keep keep' : loc -> Prop) :
  preserves a keep -> (forall l, keep' l -> keep l) -> preserves a keep'.
Proof. intros Ha Hk m m' H l Hl. apply (Ha m m' H). auto. Qed.

Lemma preserves_seq (a b : action) (keep : loc -> Prop) :
  preserves a keep -> preserves b keep -> preserves (a ;; b) keep.
Proof.
  intros Ha Hb m m' H l Hl. unfold seq in H.
  destruct (a m) as [m1|] eqn:E; [|discriminate].
  rewrite (Hb m1 m' H l Hl). apply (Ha m m1 E l Hl).
Qed.

Lemma preserves_repeat (n : nat) (a : action) (keep : loc -> Prop) :
  preserves a keep -> preserves (repeat_action n a) keep.
Proof.
  intros Ha. induction n as [|n IH]; simpl.
  - intros m m' H l _. inversion H. reflexivity.
  - apply preserves_seq; assumption.
Qed.

Lemma preserves_times (n : N) (a : action) (keep : loc -> Prop) :
  preserves a keep -> preserves (times n a) keep.
Proof. apply preserves_repeat. Qed.

Lemma preserves_deref (ptr : option matrix) (k : matrix -> action)
  (keep : loc -> Prop) :
  (forall M, preserves (k M) keep) -> preserves (deref ptr k) keep.
Proof.
  intros Hk. destruct ptr as [M|]; simpl; [apply Hk|].
  intros m m' H. discriminate.
Qed.

Lemma preserves_apply_pre (p : params) (lv : level) (rhs x t : loc)
  (keep : loc -> Prop) :
  (forall l, keep l -> x <> l /\ t <> l) ->
  preserves (op_apply_pre p lv rhs x t) keep.
Proof.
  intros Hk m m' H l Hl. unfold op_apply_pre in H.
  destruct (apply_pre _ _ _ _ _ _). inversion H. simpl.
  destruct (Hk l Hl). rewrite !upd_other; auto.
Qed.

Lemma preserves_apply_post (p : params) (lv : level) (rhs x t : loc)
  (keep : loc -> Prop) :
  (forall l, keep l -> x <> l /\ t <> l) ->
  preserves (op_apply_post p lv rhs x t) keep.
Proof.
  intros Hk m m' H l Hl. unfold op_apply_post in H.
  destruct (apply_post _ _ _ _ _ _). inversion H. simpl.
  destruct (Hk l Hl). rewrite !upd_other; auto.
Qed.

Lemma preserves_residual (rhs : loc) (A : matrix) (x r : loc)
  (keep : loc -> Prop) :
  (forall l, keep l -> r <> l) -> preserves (op_residual rhs A x r) keep.
Proof.
  intros Hk m m' H l Hl. inversion H. simpl. apply upd_other. auto.
Qed.

Lemma preserves_spmv (al : scalar) (M : matrix) (src : loc) (be : scalar)
  (dst : loc) (keep : loc -> Prop) :
  (forall l, keep l -> dst <> l) -> preserves (op_spmv al M src be dst) keep.
Proof.
  intros Hk m m' H l Hl. inversion H. simpl. apply upd_other. auto.
Qed.

Lemma preserves_clear (x : loc) (keep : loc -> Prop) :
  (forall l, keep l -> x <> l) -> preserves (op_clear x) keep.
Proof.
  intros Hk m m' H l Hl. inversion H. simpl. apply upd_other. auto.
Qed.

Lemma preserves_copy (rhs x : loc) (keep : loc -> Prop) :
  (forall l, keep l -> x <> l) -> preserves (op_copy rhs x) keep.
Proof.
  intros Hk m m' H l Hl. inversion H. simpl. apply upd_other. auto.
Qed.

Lemma loc_eqb_false_neq (a b : loc) : loc_eqb a b = false -> a <> b.
Proof. intros H ->. rewrite loc_eqb_refl in H. discriminate. Qed.

(** What lies outside the write set of a cycle at level [i]. *)
Lemma cycle_writes_false (i : nat) (x l : loc) :
  cycle_writes i x l = false ->
  x <> l /\ LevT i <> l /\ LevF (S i) <> l /\ LevU (S i) <> l /\
  cycle_writes (S i) (LevU (S i)) l = false.
Proof.
  unfold cycle_writes. intros H. apply orb_false_iff in H.
  destruct H as [Hx Hl]. apply loc_eqb_false_neq in Hx.
  split; [exact Hx|].
  destruct l as [k|j|j|j]; cbn [loc_eqb].
  - repeat split; try discriminate.
  - apply Nat.ltb_ge in Hl.
    repeat split; try discriminate.
    + intros E. inversion E. lia.
    + apply Nat.ltb_ge. lia.
  - apply Nat.ltb_ge in Hl.
    repeat split; try discriminate.
    + intros E. inversion E. lia.
    + apply orb_false_iff. split.
      * apply Nat.eqb_neq. lia.
      * apply Nat.ltb_ge. lia.
  - apply Nat.leb_gt in Hl.
    repeat split; try discriminate.
    + intros E. inversion E. lia.
    + apply Nat.leb_gt. lia.
Qed.

(** A cycle entered at level [i] writes nothing outside its write set. *)
Lemma cycle_frame (p : params) (lvls : list level) :
  forall i rhs x,
    preserves (cycle p lvls i rhs x) (fun l => cycle_writes i x l = false).
Proof.
  induction lvls as [|lvl nxt IH]; intros i rhs x.
  - intros m m' H. discriminate.
  - assert (Hxt : forall l, cycle_writes i x l = false ->
                            x <> l /\ LevT i <> l)
      by (intros l Hl; apply cycle_writes_false in Hl; tauto).
    destruct nxt as [|l' rest].
    + simpl. apply preserves_seq.
      * apply preserves_apply_pre. exact Hxt.
      * apply preserves_apply_post. exact Hxt.
    + rewrite cycle_cons2. apply preserves_times.
      apply preserves_seq.
      { apply preserves_times, preserves_apply_pre. exact Hxt. }
      apply preserves_seq.
      { apply preserves_residual. intros l Hl. apply Hxt. exact Hl. }
      apply preserves_seq.
      { apply preserves_deref. intros M. apply preserves_spmv.
        intros l Hl. apply cycle_writes_false in Hl. tauto. }
      apply preserves_seq.
      { apply preserves_clear.
        intros l Hl. apply cycle_writes_false in Hl. tauto. }
      apply preserves_seq.
      { apply (preserves_weaken _ _ _ (IH (S i) (LevF (S i)) (LevU (S i)))).
        intros l Hl. apply cycle_writes_false in Hl. tauto. }
      apply preserves_seq.
      { apply preserves_deref. intros M. apply preserves_spmv.
        intros l Hl. apply Hxt. exact Hl. }
      apply preserves_times, preserves_apply_post. exact Hxt.
Qed.

(** X8. A cycle entered at level [i] changes no vector other than its
    iterate [x], the scratch vectors [t] from level [i] down and the [f],
    [u] of the levels below [i]; [apply] and the public [cycle] change the
    caller's [x] and work vectors of the hierarchy only.  A right-hand side
    that is another vector of the caller comes back as it went in. *)
Theorem cycle_and_apply_frame :
  (forall (p : params) (lvls : list level) (i : nat) (rhs x : loc),
     preserves (cycle p lvls i rhs x) (fun l => cycle_writes i x l = false))
  /\ (forall (a : amg) (rhs x : loc),
        preserves (amg_cycle a rhs x) (fun l => cycle_writes 0 x l = false)
        /\ preserves (amg_apply a rhs x)
             (fun l => cycle_writes 0 x l = false))
  /\ (forall (x : loc) (k : nat),
        x <> Ext k -> cycle_writes 0 x (Ext k) = false).
Proof.
  split; [intros; apply cycle_frame|]. split.
  - intros a rhs x.
    assert (Hx : forall l, cycle_writes 0 x l = false -> x <> l)
      by (intros l Hl; apply cycle_writes_false in Hl; tauto).
    split; [apply cycle_frame|].
    unfold amg_apply. destruct (negb (pre_cycles (prm a) =? 0)).
    + apply preserves_seq; [apply preserves_clear; exact Hx|].
      apply preserves_times, cycle_frame.
    + apply preserves_copy. exact Hx.
  - intros x k Hne. unfold cycle_writes.
    rewrite loc_eqb_neq by exact Hne. reflexivity.
Qed.

End FrameFacts.

Section SweepCounts.

Context {B : Backend} {Rx : Relax B} {C : Coarsening B}.

Lemma filter_repeat_true (f : event -> bool) (e : event) (n : nat) :
  f e = true -> filter f (repeat e n) = repeat e n.
Proof.
  intros H. induction n as [|n IH]; simpl; [reflexivity|].
  now rewrite H, IH.
Qed.

Lemma filter_repeat_false (f : event -> bool) (e : event) (n : nat) :
  f e = false -> filter f (repeat e n) = [].
Proof.
  intros H. induction n as [|n IH]; simpl; [reflexivity|].
  now rewrite H, IH.
Qed.

Lemma filter_concat_repeat (f : event -> bool) (r : list event) (n : nat) :
  filter f (concat (repeat r n)) = concat (repeat (filter f r) n).
Proof.
  induction n as [|n IH]; simpl; [reflexivity|].
  now rewrite filter_app, IH.
Qed.

Lemma length_concat_repeat (r : list event) (n : nat) :
  length (concat (repeat r n)) = (n * length r)%nat.
Proof.
  induction n as [|n IH]; simpl; [reflexivity|].
  rewrite length_app, IH. reflexivity.
Qed.

Lemma filter_deref_events (j : nat) (ptr : option matrix)
  (al : scalar) (s : loc) (be : scalar) (d : loc) :
  filter (relaxes_at j) (deref_events ptr (fun M => EvSpmv al M s be d)) = [].
Proof. destruct ptr; reflexivity. Qed.

(** One round of the recursive case, filtered for the sweeps at level [j]. *)
Lemma filter_round (p : params) (lvl l' : level) (rest : list level)
  (i j : nat) (rhs x : loc) :
  filter (relaxes_at j) (cycle_events p (lvl :: l' :: rest) i rhs x)
  = concat (repeat
      (filter (relaxes_at j)
         (repeat (EvApplyPre (level_relax lvl) (level_A lvl) rhs x (LevT i))
                 (N.to_nat (npre p)))
       ++ filter (relaxes_at j)
            (cycle_events p (l' :: rest) (S i) (LevF (S i)) (LevU (S i)))
       ++ filter (relaxes_at j)
            (repeat (EvApplyPost (level_relax lvl) (level_A lvl) rhs x (LevT i))
                    (N.to_nat (npost p))))
      (N.to_nat (ncycle p))).
Proof.
  rewrite cycle_events_cons2, filter_concat_repeat.
  f_equal. f_equal.
  rewrite !filter_app, !filter_deref_events. reflexivity.
Qed.

(** A cycle makes no sweep at the levels above the one it is entered at. *)
Lemma no_sweeps_above (p : params) (lvls : list level) :
  forall i rhs x j,
    (j < i)%nat ->
    filter (relaxes_at j) (cycle_events p lvls i rhs x) = [].
Proof.
  induction lvls as [|lvl nxt IH]; intros i rhs x j Hj; [reflexivity|].
  assert (E : Nat.eqb i j = false) by (apply Nat.eqb_neq; lia).
  destruct nxt as [|l' rest].
  - simpl. rewrite E. reflexivity.
  - rewrite filter_round.
    rewrite !filter_repeat_false by (simpl; exact E).
    rewrite IH by lia. simpl.
    induction (N.to_nat (ncycle p)) as [|n IHn]; simpl; auto.
Qed.

Lemma sweeps_count (p : params) (lvls : list level) :
  forall i rhs x d,
    (d < length lvls)%nat ->
    length (filter (relaxes_at (i + d)) (cycle_events p lvls i rhs x))
    = sweeps_at p (length lvls) d.
Proof.
  induction lvls as [|lvl nxt IH]; intros i rhs x d Hd; [simpl in Hd; lia|].
  destruct nxt as [|l' rest].
  - simpl in Hd. assert (d = 0)%nat by lia. subst d.
    simpl. rewrite Nat.add_0_r, Nat.eqb_refl. reflexivity.
  - rewrite filter_round, length_concat_repeat.
    destruct d as [|d].
    + rewrite Nat.add_0_r.
      rewrite !filter_repeat_true by (simpl; apply Nat.eqb_refl).
      rewrite no_sweeps_above by lia.
      rewrite app_nil_l, length_app, !repeat_length.
      unfold sweeps_at. simpl Nat.eqb. rewrite Nat.pow_1_r. reflexivity.
    + assert (E : Nat.eqb i (i + S d) = false) by (apply Nat.eqb_neq; lia).
      rewrite !filter_repeat_false by (simpl; exact E).
      rewrite app_nil_l, app_nil_r.
      replace (i + S d)%nat with (S i + d)%nat by lia.
      rewrite IH by (simpl in *; lia).
      unfold sweeps_at.
      change (length (lvl :: l' :: rest)) with (S (length (l' :: rest))).
      change (Nat.eqb (S (S d)) (S (length (l' :: rest))))
        with (Nat.eqb (S d) (length (l' :: rest))).
      destruct (Nat.eqb (S d) (length (l' :: rest))).
      * rewrite Nat.pow_succ_r'. lia.
      * rewrite (Nat.pow_succ_r' _ (S d)). lia.
Qed.

(** X10. The relaxation work of one cycle, level by level: on a run that
    comes back, the calls logged contain, for the level [d] steps below the
    entry level, [2 * ncycle ^ d] sweeps if it is the last level and
    [ncycle ^ (d + 1) * (npre + npost)] sweeps otherwise. *)
Theorem sweeps_per_level (p : params) (lvls : list level) (i : nat)
  (rhs x : loc) (d : nat) :
  (d < length lvls)%nat ->
  exists evs,
    logs (cycle p lvls i rhs x) evs
    /\ length (filter (relaxes_at (i + d)) evs) = sweeps_at p (length lvls) d.
Proof.
  intros Hd. exists (cycle_events p lvls i rhs x). split.
  - apply cycle_logs.
  - apply sweeps_count. exact Hd.
Qed.

End SweepCounts.

Section ReportFacts.

Context {B : Backend} {Rx : Relax B} {C : Coarsening B} {MS : MatrixStats B}.

Lemma size_t_add_small (a b : N) :
  a + b < size_t_modulus -> size_t_add a b = a + b.
Proof. intros H. unfold size_t_add. apply N.mod_small. exact H. Qed.

Lemma fst_report_fold (lvls : list level) (acc : N * N) :
  fst (fold_left
         (fun acc lvl =>
            (size_t_add (fst acc) (glob_rows (level_A lvl)),
             size_t_add (snd acc) (glob_nonzeros (level_A lvl))))
         lvls acc)
  = fold_left (fun d lvl => size_t_add d (glob_rows (level_A lvl)))
      lvls (fst acc).
Proof.
  revert acc. induction lvls as [|l rest IH]; intros acc; [reflexivity|].
  simpl. rewrite IH. reflexivity.
Qed.

Lemma snd_report_fold (lvls : list level) (acc : N * N) :
  snd (fold_left
         (fun acc lvl =>
            (size_t_add (fst acc) (glob_rows (level_A lvl)),
             size_t_add (snd acc) (glob_nonzeros (level_A lvl))))
         lvls acc)
  = fold_left (fun n lvl => size_t_add n (glob_nonzeros (level_A lvl)))
      lvls (snd acc).
Proof.
  revert acc. induction lvls as [|l rest IH]; intros acc; [reflexivity|].
  simpl. rewrite IH. reflexivity.
Qed.

Lemma wrapped_fold_exact (f : level -> N) (lvls : list level) :
  forall acc,
    acc + total_of f lvls < size_t_modulus ->
    fold_left (fun d lvl => size_t_add d (f lvl)) lvls acc
    = acc + total_of f lvls.
Proof.
  induction lvls as [|l rest IH]; intros acc H; simpl in *.
  - lia.
  - rewrite size_t_add_small by lia. rewrite IH by lia. lia.
Qed.

(** X13. As long as neither total reaches [2^64], the two sums the report
    accumulates are the exact totals of the levels' global rows and global
    nonzeros. *)
Theorem report_sums_exact (lvls : list level) :
  total_of (fun l => glob_rows (level_A l)) lvls < size_t_modulus ->
  total_of (fun l => glob_nonzeros (level_A l)) lvls < size_t_modulus ->
  report_sums lvls
  = (total_of (fun l => glob_rows (level_A l)) lvls,
     total_of (fun l => glob_nonzeros (level_A l)) lvls).
Proof.
  intros Hr Hn. unfold report_sums.
  rewrite (surjective_pairing (fold_left _ lvls (0, 0))).
  rewrite fst_report_fold, snd_report_fold. simpl fst. simpl snd.
  rewrite (wrapped_fold_exact (fun l => glob_rows (level_A l))) by exact Hr.
  rewrite (wrapped_fold_exact (fun l => glob_nonzeros (level_A l)))
    by exact Hn.
  reflexivity.
Qed.

(** No level of a built hierarchy has more rows than the input, when the
    coarsening does not grow. *)
Lemma init_rows_le_input (p : params) (A : matrix) (lvls : list level) :
  coarsening_shrinks ->
  init p A = Ok lvls ->
  Forall (fun l => glob_rows (level_A l) <= glob_rows A) lvls.
Proof.
  intros Hshrink H. apply init_ok_inv in H. destruct H as (_ & r & Hr & ->).
  revert Hr.
  apply (init_loop_rule p
    (fun A0 levels =>
       glob_rows A0 <= glob_rows A /\
       Forall (fun l => glob_rows (level_A l) <= glob_rows A) levels)
    (fun r =>
       Forall (fun l => glob_rows (level_A l) <= glob_rows A)
         (init_finish p r))).
  - intros A0 levels [HA HF] _. simpl. apply Forall_app. split; [exact HF|].
    constructor; [exact HA|constructor].
  - intros A0 levels [HA HF] _ _ _. simpl. apply Forall_app. split.
    + apply Forall_app. split; [exact HF|].
      constructor; [exact HA|constructor].
    + constructor; [exact HA|constructor].
  - intros A0 levels P R [HA HF] _ _ _ _. simpl.
    apply Forall_app. split; [exact HF|]. constructor; [exact HA|constructor].
  - intros A0 levels P R [HA HF] _ _ HT _. split.
    + pose proof (Hshrink _ _ _ _ HT). lia.
    + apply Forall_app. split; [exact HF|].
      constructor; [exact HA|constructor].
  - split; [lia|constructor].
Qed.

Lemma total_of_le (f : level -> N) (bound : N) (lvls : list level) :
  Forall (fun l => f l <= bound) lvls ->
  total_of f lvls <= size lvls * bound.
Proof.
  induction 1 as [|l rest Hl _ IH].
  - unfold size. simpl. lia.
  - change (total_of f (l :: rest)) with (f l + total_of f rest).
    unfold size in *.
    change (length (l :: rest)) with (S (length rest)).
    rewrite Nat2N.inj_succ. lia.
Qed.

(** X16. With a coarsening that does not grow, the global row count never
    increases from one level of a built hierarchy to the next, and no level
    has more rows than the input matrix. *)
Theorem row_counts_never_grow (p : params) (A : matrix) (lvls : list level) :
  coarsening_shrinks ->
  init p A = Ok lvls ->
  (forall i l l',
     nth_error lvls i = Some l ->
     nth_error lvls (S i) = Some l' ->
     glob_rows (level_A l') <= glob_rows (level_A l))
  /\ (forall i l,
        nth_error lvls i = Some l ->
        glob_rows (level_A l) <= glob_rows A).
Proof.
  intros Hshrink H. split.
  - apply (init_rows_nonincreasing p A lvls Hshrink H).
  - intros i l Hn.
    pose proof (init_rows_le_input p A lvls Hshrink H) as HF.
    rewrite Forall_forall in HF. apply HF. eapply nth_error_In. exact Hn.
Qed.

(** X14. With a coarsening that does not grow, the row total the report
    prints over the finest level's row count lies between that row count
    and the number of levels times it (grid complexity between 1 and the
    number of levels), as long as that bound stays below [2^64]. *)
Theorem report_row_total_bounds (p : params) (A : matrix)
  (lvls : list level) :
  coarsening_shrinks ->
  init p A = Ok lvls ->
  size lvls * glob_rows A < size_t_modulus ->
  glob_rows A <= fst (report_sums lvls)
  /\ fst (report_sums lvls) <= size lvls * glob_rows A.
Proof.
  intros Hshrink H Hsmall.
  pose proof (init_rows_le_input p A lvls Hshrink H) as HF.
  pose proof (total_of_le (fun l => glob_rows (level_A l)) _ _ HF) as Hle.
  unfold report_sums. rewrite fst_report_fold. simpl fst.
  rewrite (wrapped_fold_exact (fun l => glob_rows (level_A l))) by lia.
  split; [|lia].
  destruct (init_first_level p A lvls H) as (l & rest & -> & HA).
  simpl. rewrite HA. lia.
Qed.

End ReportFacts.

Section ImportFacts.

Context {B : Backend} {Rx : Relax B} {C : Coarsening B}
        {PT : PropertyTree B Rx C}.

(** X15. Parameters that come out of the property-tree constructor have
    [max_levels > 0], and each field is what the tree gave for the key of
    the same name, read with the default of [params()]: 1024 for
    [coarse_enough], the largest [unsigned] for [max_levels], 1 for the
    four counts. *)
Theorem params_import_fields (pt : ptree) (v : params) :
  params_import pt = Ok v ->
  0 < max_levels v
  /\ import_child_coarsening pt = Ok (coarsening v)
  /\ import_child_relax pt = Ok (relax v)
  /\ import_value pt "coarse_enough" 1024 = Ok (coarse_enough v)
  /\ import_value pt "max_levels" 4294967295 = Ok (max_levels v)
  /\ import_value pt "npre" 1 = Ok (npre v)
  /\ import_value pt "npost" 1 = Ok (npost v)
  /\ import_value pt "ncycle" 1 = Ok (ncycle v)
  /\ import_value pt "pre_cycles" 1 = Ok (pre_cycles v).
Proof.
  unfold params_import.
  change (coarse_enough params_default) with 1024.
  change (max_levels params_default) with 4294967295.
  change (npre params_default) with 1.
  change (npost params_default) with 1.
  change (ncycle params_default) with 1.
  change (pre_cycles params_default) with 1.
  destruct (import_child_coarsening pt) as [c| |]; cbn [bind_outcome];
    try discriminate.
  destruct (import_child_relax pt) as [r| |]; cbn [bind_outcome];
    try discriminate.
  destruct (import_value pt "coarse_enough" 1024) as [ce| |];
    cbn [bind_outcome]; try discriminate.
  destruct (import_value pt "max_levels" 4294967295) as [ml| |];
    cbn [bind_outcome]; try discriminate.
  destruct (import_value pt "npre" 1) as [n1| |]; cbn [bind_outcome];
    try discriminate.
  destruct (import_value pt "npost" 1) as [n2| |]; cbn [bind_outcome];
    try discriminate.
  destruct (import_value pt "ncycle" 1) as [nc| |]; cbn [bind_outcome];
    try discriminate.
  destruct (import_value pt "pre_cycles" 1) as [pc| |]; cbn [bind_outcome];
    try discriminate.
  destruct (params_check pt _) as [u| |]; cbn [bind_outcome];
    try discriminate.
  unfold precondition. destruct (0 <? ml) eqn:Hml; cbn [bind_outcome];
    try discriminate.
  intros H. inversion H. subst v. simpl.
  apply N.ltb_lt in Hml. repeat split; reflexivity || assumption.
Qed.

End ImportFacts.

(** ** Instances of the further properties on the dense instantiation *)

Lemma system_matrix_is_input_witness :
  amg_new poisson4 (dense_params 1 10 1 1 1 1) = Ok (poisson4_amg 1 1 1 1) /\
  (system_matrix (poisson4_amg 1 1 1 1) = Some poisson4
   /\ prm (poisson4_amg 1 1 1 1) = dense_params 1 10 1 1 1 1).
Proof.
  split; [vm_compute; reflexivity|].
  apply (system_matrix_is_input (dense_params 1 10 1 1 1 1) poisson4).
  vm_compute. reflexivity.
Defined.

Lemma init_size_bounds_witness :
  init (dense_params 1 10 1 1 1 1) poisson4 = Ok poisson4_levels /\
  (1 <= size poisson4_levels
   /\ size poisson4_levels <= max_levels (dense_params 1 10 1 1 1 1) + 1).
Proof.
  split; [vm_compute; reflexivity|].
  apply (init_size_bounds (dense_params 1 10 1 1 1 1) poisson4).
  vm_compute. reflexivity.
Defined.

Lemma levels_before_last_above_threshold_witness :
  init (dense_params 1 10 1 1 1 1) poisson4 = Ok poisson4_levels /\
  nth_error poisson4_levels 1 = Some poisson4_lvl1 /\
  (2 < length poisson4_levels)%nat /\
  coarse_enough (dense_params 1 10 1 1 1 1) < glob_rows (level_A poisson4_lvl1).
Proof.
  split; [vm_compute; reflexivity|]. split; [reflexivity|].
  split; [simpl; lia|].
  apply (levels_before_last_above_threshold (dense_params 1 10 1 1 1 1)
           poisson4 poisson4_levels 1 poisson4_lvl1).
  - vm_compute. reflexivity.
  - reflexivity.
  - simpl. lia.
Defined.

Lemma last_level_stopping_shape_witness :
  init (dense_params 1 10 1 1 1 1) diagonal4 = Ok [diagonal4_lvl] /\
  size [diagonal4_lvl] <= max_levels (dense_params 1 10 1 1 1 1) /\
  (exists front last,
     [diagonal4_lvl] = front ++ [last]
     /\ stopping_shape (dense_params 1 10 1 1 1 1) last).
Proof.
  split; [vm_compute; reflexivity|]. split; [vm_compute; discriminate|].
  apply (last_level_stopping_shape (dense_params 1 10 1 1 1 1) diagonal4).
  - vm_compute. reflexivity.
  - vm_compute. discriminate.
Defined.

Lemma built_hierarchy_never_crashes_witness :
  amg_new poisson4 (dense_params 1 10 1 1 2 3) = Ok (poisson4_amg 1 1 2 3) /\
  size (levels (poisson4_amg 1 1 2 3))
  <= max_levels (dense_params 1 10 1 1 2 3) /\
  (forall rhs x,
     total (amg_cycle (poisson4_amg 1 1 2 3) rhs x)
     /\ total (amg_apply (poisson4_amg 1 1 2 3) rhs x)).
Proof.
  split; [vm_compute; reflexivity|]. split; [vm_compute; discriminate|].
  apply (built_hierarchy_never_crashes (dense_params 1 10 1 1 2 3) poisson4).
  - vm_compute. reflexivity.
  - vm_compute. discriminate.
Defined.

Lemma overshoot_hierarchy_always_crashes_witness :
  amg_new poisson4 (dense_params 1 1 1 1 1 1)
  = Ok {| prm := dense_params 1 1 1 1 1 1;
          levels := [level_new (dense_params 1 1 1 1 1 1) poisson4;
                     level_new (dense_params 1 1 1 1 1 1) poisson4] |} /\
  max_levels (dense_params 1 1 1 1 1 1)
  < size [level_new (dense_params 1 1 1 1 1 1) poisson4;
          level_new (dense_params 1 1 1 1 1 1) poisson4] /\
  0 < max_levels (dense_params 1 1 1 1 1 1) /\
  0 < ncycle (dense_params 1 1 1 1 1 1) /\
  (forall rhs x,
     always_crashes
       (amg_cycle
          {| prm := dense_params 1 1 1 1 1 1;
             levels := [level_new (dense_params 1 1 1 1 1 1) poisson4;
                        level_new (dense_params 1 1 1 1 1 1) poisson4] |}
          rhs x)
     /\ (0 < pre_cycles (dense_params 1 1 1 1 1 1) ->
         always_crashes
           (amg_apply
              {| prm := dense_params 1 1 1 1 1 1;
                 levels := [level_new (dense_params 1 1 1 1 1 1) poisson4;
                            level_new (dense_params 1 1 1 1 1 1) poisson4] |}
              rhs x))).
Proof.
  split; [vm_compute; reflexivity|]. split; [reflexivity|].
  split; [reflexivity|]. split; [reflexivity|].
  apply (overshoot_hierarchy_always_crashes (dense_params 1 1 1 1 1 1)
           poisson4);
    reflexivity.
Defined.

Lemma cycle_ignores_construction_params_witness :
  same_cycle_params (dense_params 1 10 2 1 2 1) (dense_params 7 3 2 1 2 5) /\
  (cycle (dense_params 1 10 2 1 2 1) poisson4_levels 0 (Ext 0) (Ext 1)
   = cycle (dense_params 7 3 2 1 2 5) poisson4_levels 0 (Ext 0) (Ext 1)
   /\ cycle_events (dense_params 1 10 2 1 2 1) poisson4_levels 0
        (Ext 0) (Ext 1)
      = cycle_events (dense_params 7 3 2 1 2 5) poisson4_levels 0
          (Ext 0) (Ext 1)).
Proof.
  split; [repeat split|].
  apply (cycle_ignores_construction_params (dense_params 1 10 2 1 2 1)
           (dense_params 7 3 2 1 2 5)).
  repeat split.
Defined.

Lemma sweeps_per_level_witness :
  (2 < length poisson4_levels)%nat /\
  (exists evs,
     logs (cycle (dense_params 1 10 2 1 2 1) poisson4_levels 0
             (Ext 0) (Ext 1)) evs
     /\ length (filter (relaxes_at (0 + 2)) evs)
        = sweeps_at (dense_params 1 10 2 1 2 1) (length poisson4_levels) 2).
Proof.
  split; [simpl; lia|].
  apply (sweeps_per_level (dense_params 1 10 2 1 2 1) poisson4_levels 0
           (Ext 0) (Ext 1) 2).
  simpl. lia.
Defined.

Lemma apply_one_more_cycle_witness :
  0 < 2 /\
  same_action
    (amg_apply (with_pre_cycles (poisson4_amg 1 1 1 1) (2 + 1))
       (Ext 0) (Ext 1))
    (amg_apply (with_pre_cycles (poisson4_amg 1 1 1 1) 2) (Ext 0) (Ext 1) ;;
     amg_cycle (poisson4_amg 1 1 1 1) (Ext 0) (Ext 1)).
Proof.
  split; [reflexivity|].
  apply (apply_one_more_cycle (poisson4_amg 1 1 1 1) 2). reflexivity.
Defined.

Lemma report_sums_exact_witness :
  total_of (fun l => glob_rows (level_A l)) poisson4_levels
  < size_t_modulus /\
  total_of (fun l => glob_nonzeros (level_A l)) poisson4_levels
  < size_t_modulus /\
  report_sums poisson4_levels
  = (total_of (fun l => glob_rows (level_A l)) poisson4_levels,
     total_of (fun l => glob_nonzeros (level_A l)) poisson4_levels).
Proof.
  split; [reflexivity|]. split; [reflexivity|].
  apply (report_sums_exact poisson4_levels); reflexivity.
Defined.

Lemma row_counts_never_grow_witness :
  coarsening_shrinks /\
  init (dense_params 1 10 1 1 1 1) poisson4 = Ok poisson4_levels /\
  ((forall i l l',
      nth_error poisson4_levels i = Some l ->
      nth_error poisson4_levels (S i) = Some l' ->
      glob_rows (level_A l') <= glob_rows (level_A l))
   /\ (forall i l,
         nth_error poisson4_levels i = Some l ->
         glob_rows (level_A l) <= glob_rows poisson4)).
Proof.
  split; [exact dense_coarsening_shrinks|].
  split; [vm_compute; reflexivity|].
  apply (row_counts_never_grow (dense_params 1 10 1 1 1 1) poisson4).
  - exact dense_coarsening_shrinks.
  - vm_compute. reflexivity.
Defined.

Lemma report_row_total_bounds_witness :
  coarsening_shrinks /\
  init (dense_params 1 10 1 1 1 1) poisson4 = Ok poisson4_levels /\
  size poisson4_levels * glob_rows poisson4 < size_t_modulus /\
  (glob_rows poisson4 <= fst (report_sums poisson4_levels)
   /\ fst (report_sums poisson4_levels)
      <= size poisson4_levels * glob_rows poisson4).
Proof.
  split; [exact dense_coarsening_shrinks|].
  split; [vm_compute; reflexivity|]. split; [reflexivity|].
  apply (report_row_total_bounds (dense_params 1 10 1 1 1 1) poisson4).
  - exact dense_coarsening_shrinks.
  - vm_compute. reflexivity.
  - reflexivity.
Defined.

Lemma params_import_fields_witness :
  params_import [("npre"%string, 2); ("max_levels"%string, 5)]
  = Ok (dense_params 1024 5 2 1 1 1) /\
  (0 < max_levels (dense_params 1024 5 2 1 1 1)
   /\ import_child_coarsening [("npre"%string, 2); ("max_levels"%string, 5)]
      = Ok (coarsening (dense_params 1024 5 2 1 1 1))
   /\ import_child_relax [("npre"%string, 2); ("max_levels"%string, 5)]
      = Ok (relax (dense_params 1024 5 2 1 1 1))
   /\ import_value [("npre"%string, 2); ("max_levels"%string, 5)]
        "coarse_enough" 1024
      = Ok (coarse_enough (dense_params 1024 5 2 1 1 1))
   /\ import_value [("npre"%string, 2); ("max_levels"%string, 5)]
        "max_levels" 4294967295
      = Ok (max_levels (dense_params 1024 5 2 1 1 1))
   /\ import_value [("npre"%string, 2); ("max_levels"%string, 5)] "npre" 1
      = Ok (npre (dense_params 1024 5 2 1 1 1))
   /\ import_value [("npre"%string, 2); ("max_levels"%string, 5)] "npost" 1
      = Ok (npost (dense_params 1024 5 2 1 1 1))
   /\ import_value [("npre"%string, 2); ("max_levels"%string, 5)] "ncycle" 1
      = Ok (ncycle (dense_params 1024 5 2 1 1 1))
   /\ import_value [("npre"%string, 2); ("max_levels"%string, 5)]
        "pre_cycles" 1
      = Ok (pre_cycles (dense_params 1024 5 2 1 1 1))).
Proof.
  split; [vm_compute; reflexivity|].
  apply (params_import_fields (PT := dense_ptree)
           [("npre"%string, 2); ("max_levels"%string, 5)]
           (dense_params 1024 5 2 1 1 1)).
  vm_compute. reflexivity.
Defined.

(** The report's plain totals on the three-level hierarchy: 4 + 2 + 1 rows,
    10 + 4 + 1 nonzeros. *)
Example poisson4_report_sums : report_sums poisson4_levels = (7, 15).
Proof. vm_compute. reflexivity. Qed.

(** Sweeps of a W-cycle with two pre-sweeps on three levels: 6 at the top,
    12 in the middle, 8 at the bottom. *)
Example poisson4_wcycle_sweeps :
  map (fun d =>
         length (filter (relaxes_at d)
                   (cycle_events (dense_params 1 10 2 1 2 1) poisson4_levels
                      0 (Ext 0) (Ext 1))))
      [0; 1; 2]%nat
  = [6; 12; 8]%nat.
Proof. vm_compute. reflexivity. Qed.
